(** * geocollection: a multi-resolution spatial index over S2 cells

    Shallow embedding of [geocollection.go] (package [geocollection]) and
    verification of the properties its specification states about the
    index: the reverse index and the cell index stay synchronised under
    [Set] and [Delete], relocation leaves the key only at its new cells,
    and the radius search returns every item whose leaf cell is covered.

    Conventions of the embedding.
    - Go maps are stdpp [gmap]s; the idiom [map[interface{}]bool] that only
      ever stores [true] is a [gset] of keys.  Reading a missing level or a
      missing position yields the nil map in Go; here it yields [∅].
    - Keys are values of a type with decidable equality (the keys Go can
      compare reflexively); contents are [interface{}] values, modelled as
      [option V] with [None] for Go's [nil].
    - [float64] is [spec_float] at precision 53 and exponent bound 1024;
      Go's [==] on floats is [SFeqb] (NaN differs from itself, the two
      zeros are equal).
    - The [sync.RWMutex] is not modelled: every method runs under the lock,
      so the sequential semantics below is what each caller observes.
    - S2 (github.com/golang/geo) is an external library: its operations are
      the methods of the class [S2]; the properties of S2 a theorem relies
      on are hypotheses of that theorem. *)

From Stdlib Require Import ZArith Lia.
From Stdlib Require Import Floats.SpecFloat.
From stdpp Require Import base option list gmap fin_maps fin_sets strings.

Local Open Scope Z_scope.
#[local] Set Warnings "-clear-no-such-hyp".

(** ** Floating point *)

Definition float64 : Type := spec_float.

Definition prec64 : Z := 53.
Definition emax64 : Z := 1024.

(** Go's [a == b] and [a / b] on [float64]. *)
Definition float_eq (a b : float64) : bool := SFeqb a b.
Definition float_div (a b : float64) : float64 := SFdiv prec64 emax64 a b.

(** [const EarthRadiusMeters = 6371008.8], i.e. the double
    [0x1.84db033333333p+22]. *)
Definition EarthRadiusMeters : float64 :=
  S754_finite false 6840818609632051 (-30).

(** [const maxCellLevel = 30] *)
Definition maxCellLevel : Z := 30.

(** ** The S2 interface used by the collection *)

(** [s2.CellID] is a [uint64]. *)
Definition CellID : Type := Z.

(** [s2.RegionCoverer], as the collection fills it in. *)
Record RegionCoverer := {
  rc_MaxLevel : Z;
  rc_MinLevel : Z;
  rc_LevelMod : Z;
  rc_MaxCells : Z
}.

Class S2 := {
  LatLng : Type;
  Point : Type;
  Cap : Type;
  (** [s2.LatLngFromDegrees(lat, lng)] *)
  LatLngFromDegrees : float64 → float64 → LatLng;
  (** [s2.CellIDFromLatLng(ll)] *)
  CellIDFromLatLng : LatLng → CellID;
  (** [ci.Parent(level)] *)
  Parent : CellID → Z → CellID;
  (** [ci.Pos()] *)
  Pos : CellID → Z;
  (** [ci.Level()] *)
  Level : CellID → Z;
  (** [s2.PointFromLatLng(ll)] *)
  PointFromLatLng : LatLng → Point;
  (** [s2.LatLngFromPoint(p)] *)
  LatLngFromPoint : Point → LatLng;
  (** [ll.Lat.Degrees()] and [ll.Lng.Degrees()] *)
  LatDegrees : LatLng → float64;
  LngDegrees : LatLng → float64;
  (** [s2.CapFromCenterAngle(center, angle)] *)
  CapFromCenterAngle : Point → float64 → Cap;
  (** [coverer.Covering(region)] and [coverer.FastCovering(region)] *)
  Covering : RegionCoverer → Cap → list CellID;
  FastCovering : RegionCoverer → Cap → list CellID;
  (** [s2.CellFromCellID(cell).Vertex(i)] *)
  Vertex : CellID → Z → Point
}.

(** ** Data model *)

(** [type itemIndex struct { cellPosition uint64; cellLevel int }] *)
Record itemIndex := {
  cellPosition : Z;
  cellLevel : Z
}.

Global Instance itemIndex_eq_dec : EqDecision itemIndex.
Proof. solve_decision. Defined.

(** [type SearchCoveringParameters struct] *)
Record SearchCoveringParameters := {
  LevelMod : Z;
  MaxCells : Z;
  MaxLevel : Z;
  MinLevel : Z;
  UseFastCovering : bool
}.

(** [type SearchCoveringResult [][][]float64] *)
Definition SearchCoveringResult : Type := list (list (list float64)).

Section Collection.
Context {K : Type} {K_eq_dec : EqDecision K} {K_countable : Countable K} {V : Type}.
Context {s2 : S2}.

(** Go's [interface{}] contents: [None] is [nil]. *)
Definition iface : Type := option V.

(** [type collectionContents struct] *)
Record collectionContents := {
  contents : iface;
  latitude : float64;
  longitude : float64
}.

(** [type cellItems map[uint64]map[interface{}]bool] *)
Abbreviation cellItems := (gmap Z (gset K)).

(** [type Collection struct] (without the mutex) *)
Record Collection := {
  cells : gmap Z cellItems;
  keys : gmap K (list itemIndex);
  items : gmap K collectionContents
}.

(** [func NewCollection() Collection] *)
Definition NewCollection : Collection :=
  {| cells := ∅; keys := ∅; items := ∅ |}.

(** The read [cs[level][pos]]: a missing level or position reads as the
    nil map, which has no keys. *)
Definition slot (cs : gmap Z cellItems) (level pos : Z) : option (gset K) :=
  cs !! level ≫= λ m, m !! pos.

Definition cell_at (cs : gmap Z cellItems) (level pos : Z) : gset K :=
  default ∅ (slot cs level pos).

(** [delete(c.cells[index.cellLevel][index.cellPosition], key)]: the inner
    map is mutated in place when it exists, nothing happens otherwise. *)
Definition remove_key (key : K) (cs : gmap Z cellItems) (index : itemIndex)
  : gmap Z cellItems :=
  alter (alter (λ s, s ∖ {[key]}) (cellPosition index)) (cellLevel index) cs.

(** [func (c Collection) delete(key interface{})] *)
Definition Collection_delete (key : K) (c : Collection) : Collection :=
  let items1 := delete key (items c) in
  match keys c !! key with
  | None => {| cells := cells c; keys := keys c; items := items1 |}
  | Some itemIndices =>
      {| cells := foldl (remove_key key) (cells c) itemIndices;
         keys := delete key (keys c);
         items := items1 |}
  end.

(** [func (c Collection) Delete(key interface{})] *)
Definition Collection_Delete (key : K) (c : Collection) : Collection :=
  Collection_delete key c.

(** The leaf cell of a location,
    [s2.CellIDFromLatLng(s2.LatLngFromDegrees(latitude, longitude))]. *)
Definition leafCellID (lat lon : float64) : CellID :=
  CellIDFromLatLng (LatLngFromDegrees lat lon).

(** One iteration of the loop of [Set], lines 99-113. *)
Definition index_at_level (key : K) (leaf : CellID) (c : Collection) (level : Z)
  : Collection :=
  let cells1 :=
    match cells c !! level with
    | Some _ => cells c
    | None => <[level := ∅]> (cells c)
    end in
  let cellPos := Pos (Parent leaf level) in
  let atLevel := default ∅ (cells1 !! level) in
  let atLevel1 :=
    match atLevel !! cellPos with
    | Some _ => atLevel
    | None => <[cellPos := ∅]> atLevel
    end in
  let members := default ∅ (atLevel1 !! cellPos) in
  {| cells := <[level := <[cellPos := {[key]} ∪ members]> atLevel1]> cells1;
     keys := <[key := default [] (keys c !! key)
                      ++ [{| cellPosition := cellPos; cellLevel := level |}]]> (keys c);
     items := items c |}.

(** [for level := n - 1; level >= 0; level--]; [Set] runs it with
    [n = maxCellLevel + 1]. *)
Fixpoint index_levels (key : K) (leaf : CellID) (n : nat) (c : Collection)
  : Collection :=
  match n with
  | O => c
  | S m => index_levels key leaf m (index_at_level key leaf c (Z.of_nat m))
  end.

(** The guard of the early return of [Set]:
    [ok && existing.latitude == latitude && existing.longitude == longitude]. *)
Definition same_location (existing : option collectionContents)
    (lat lon : float64) : bool :=
  match existing with
  | Some e => float_eq (latitude e) lat && float_eq (longitude e) lon
  | None => false
  end.

(** [func (c Collection) Set(key, contents interface{}, latitude, longitude float64)] *)
Definition Collection_Set (key : K) (v : iface) (lat lon : float64)
    (c : Collection) : Collection :=
  let newContents := {| contents := v; latitude := lat; longitude := lon |} in
  if same_location (items c !! key) lat lon then
    {| cells := cells c; keys := keys c;
       items := <[key := newContents]> (items c) |}
  else
    let c1 := Collection_delete key c in
    let c2 := {| cells := cells c1;
                 keys := <[key := []]> (keys c1);
                 items := <[key := newContents]> (items c1) |} in
    index_levels key (leafCellID lat lon) (Z.to_nat (maxCellLevel + 1)) c2.

(** [func (c Collection) ItemByKey(key interface{}) interface{}] *)
Definition Collection_ItemByKey (key : K) (c : Collection) : iface :=
  match items c !! key with
  | None => None
  | Some r => contents r
  end.

(** [func NewPointFromLatLng(latitude, longitude float64) s2.Point] *)
Definition NewPointFromLatLng (lat lon : float64) : Point :=
  PointFromLatLng (LatLngFromDegrees lat lon).

(** The polygon of a covering cell: its four vertices as [lng, lat]
    pairs, the first one repeated at the end. *)
Definition cell_polygon (cell : CellID) : list (list float64) :=
  let vertex (i : Z) :=
    let ll := LatLngFromPoint (Vertex cell i) in
    [LngDegrees ll; LatDegrees ll] in
  let vertices := vertex <$> [0; 1; 2; 3] in
  vertices ++ [default [] (head vertices)].

(** [c.items[key].contents]: the zero value ([nil]) when the key has no
    record. *)
Definition contents_of (c : Collection) (key : K) : iface :=
  default None (contents <$> items c !! key).

(** The inner loop [for key := range c.cells[cell.Level()][cell.Pos()]].
    Go visits the keys in an unspecified order; [elements] fixes one.
    What holds of every order is stated with [ItemsWithinDistance_may_return]
    below. *)
Definition found_in_cell (c : Collection) (cell : CellID) : list iface :=
  contents_of c <$> elements (cell_at (cells c) (Level cell) (Pos cell)).

(** The keys the loop visits, cell after cell of a covering, and how many
    times a key is among them. *)
Definition found_keys (c : Collection) (cellUnion : list CellID) : list K :=
  cellUnion ≫= λ cell, elements (cell_at (cells c) (Level cell) (Pos cell)).

Definition occurrences (k : K) (l : list K) : nat :=
  length (filter (λ k', k' = k) l).

(** The covering the search asks S2 for (lines 160-176). *)
Definition search_covering (lat lon distanceMeters : float64)
    (params : SearchCoveringParameters) : list CellID :=
  let capAngle := float_div distanceMeters EarthRadiusMeters in
  let capCenter := NewPointFromLatLng lat lon in
  let searchCap := CapFromCenterAngle capCenter capAngle in
  let coverer := {| rc_MaxLevel := MaxLevel params;
                    rc_MinLevel := MinLevel params;
                    rc_LevelMod := LevelMod params;
                    rc_MaxCells := MaxCells params |} in
  if UseFastCovering params then FastCovering coverer searchCap
  else Covering coverer searchCap.

(** [func (c Collection) ItemsWithinDistance(...)]: the loop over the
    cell union threads the two result slices. *)
Definition Collection_ItemsWithinDistance (lat lon distanceMeters : float64)
    (params : SearchCoveringParameters) (c : Collection)
  : list iface * SearchCoveringResult :=
  let cellUnion := search_covering lat lon distanceMeters params in
  foldl (λ '(foundItems, cellBounds) cell,
           (foundItems ++ found_in_cell c cell,
            cellBounds ++ [cell_polygon cell]))
        ([], []) cellUnion.

(** [for key := range m] visits every key of the map once, in an order
    that Go leaves unspecified and changes from one run of the loop to the
    next: [visited] is one run over the set [s]. *)
Definition range_order (s : gset K) (visited : list K) : Prop :=
  visited ≡ₚ elements s.

(** The lists [ItemsWithinDistance] may return as its first result: the
    cells are taken in the order of the covering, and for each cell the
    inner loop appends the contents of the keys of the cell's slot in the
    order of its run. *)
Definition ItemsWithinDistance_may_return (lat lon distanceMeters : float64)
    (params : SearchCoveringParameters) (c : Collection)
    (foundItems : list iface) : Prop :=
  ∃ visits : list (list K),
    Forall2 (λ cell visited,
               range_order (cell_at (cells c) (Level cell) (Pos cell)) visited)
            (search_covering lat lon distanceMeters params) visits
    ∧ foundItems = visits ≫= fmap (contents_of c).

(** Modelled from the spec: [GetItems] is called by the tests but its
    body is not among the source files.  The specification says it
    "returns a bounded slice of stored contents for enumeration/
    pagination", at most [pageSize] of them starting at [startIndex] of an
    enumeration of the item records whose order is unspecified, and the
    empty sequence when [startIndex] is past the end.  The enumeration
    order is the one of [map_to_list]; an index below zero counts as
    zero. *)
Definition Collection_GetItems (pageSize startIndex : Z) (c : Collection)
  : list iface :=
  let all := (λ kv, contents (snd kv)) <$> map_to_list (items c) in
  take (Z.to_nat pageSize) (drop (Z.to_nat startIndex) all).

(** Collections built through the API. *)
Inductive reachable : Collection → Prop :=
| reachable_new : reachable NewCollection
| reachable_Set key v lat lon c :
    reachable c → reachable (Collection_Set key v lat lon c)
| reachable_Delete key c :
    reachable c → reachable (Collection_Delete key c).

(** ** The index invariant *)

(** The reverse-index entries [Set] appends for a leaf cell when it runs the
    loop from level [n - 1] down to level 0, in the order of the appends. *)
Fixpoint index_entries (leaf : CellID) (n : nat) : list itemIndex :=
  match n with
  | O => []
  | S m => {| cellPosition := Pos (Parent leaf (Z.of_nat m));
              cellLevel := Z.of_nat m |} :: index_entries leaf m
  end.

(** The leaf cell of a stored record. *)
Definition leaf_of (r : collectionContents) : CellID :=
  leafCellID (latitude r) (longitude r).

(** The part of the invariant that does not look at the geometry: a key
    has a reverse-index list exactly when it has a record, and the list
    names every slot of the cell index the key sits in. *)
Record index_sync (c : Collection) : Prop := {
  sync_keys : ∀ k, items c !! k = None ↔ keys c !! k = None;
  sync_cells : ∀ k level pos,
    k ∈ cell_at (cells c) level pos →
    ∃ entries, keys c !! k = Some entries
               ∧ {| cellPosition := pos; cellLevel := level |} ∈ entries
}.

(** The cell index and the reverse index agree with the item records:
    a key has a reverse-index list exactly when it has a record, the list
    is the one [Set] builds for the record's location, and a key sits in a
    slot of the cell index exactly when the slot is one of those. *)
Record index_inv (c : Collection) : Prop := {
  inv_keys : ∀ k,
    keys c !! k
    = (λ r, index_entries (leaf_of r) (Z.to_nat (maxCellLevel + 1))) <$> items c !! k;
  inv_cells : ∀ k level pos,
    k ∈ cell_at (cells c) level pos ↔
    ∃ r, items c !! k = Some r ∧ 0 ≤ level ≤ maxCellLevel
         ∧ pos = Pos (Parent (leaf_of r) level)
}.

(** S2 maps locations that Go's [==] identifies (the two zeros) to the
    same leaf cell. *)
Definition leaf_respects_float_eq : Prop :=
  ∀ lat lat' lon lon',
    float_eq lat lat' = true → float_eq lon lon' = true →
    leafCellID lat lon = leafCellID lat' lon'.

(** A cell contains a location when it is the ancestor, at its own level,
    of the location's leaf cell. *)
Definition cell_contains (cell : CellID) (lat lon : float64) : Prop :=
  0 ≤ Level cell ≤ maxCellLevel ∧ Parent (leafCellID lat lon) (Level cell) = cell.

End Collection.

(** ** S2 cell identifiers, and the locations of the tests

    The cell-id arithmetic of [s2/cellid.go]: a cell id is the face in the
    top three bits, then two bits per level along the Hilbert curve, then
    a one bit, then zeros.  The theorems below do not depend on it; it
    gives them a concrete geometry to run on. *)
Module S2Cells.

Definition uint64 (z : Z) : Z := z mod 2 ^ 64.

(** [func lsbForLevel(level int) uint64 { return 1 << uint64(2*(maxLevel-level)) }] *)
Definition lsbForLevel (level : Z) : Z := Z.shiftl 1 (2 * (30 - level)).

(** [func (ci CellID) Parent(level int) CellID]:
    [lsb := lsbForLevel(level); return CellID((uint64(ci) & -lsb) | lsb)] *)
Definition Parent (ci : CellID) (level : Z) : CellID :=
  let lsb := lsbForLevel level in
  Z.lor (Z.land ci (uint64 (- lsb))) lsb.

(** [func (ci CellID) Pos() uint64 { return uint64(ci) & (^uint64(0) >> faceBits) }]
    with [faceBits = 3]: the face is dropped. *)
Definition Pos (ci : CellID) : Z :=
  Z.land ci (Z.shiftr (2 ^ 64 - 1) 3).

(** [func (ci CellID) Level() int { return maxLevel - findLSBSetNonZero64(uint64(ci))>>1 }] *)
Definition Level (ci : CellID) : Z :=
  30 - Z.shiftr (Z.log2 (Z.land ci (- ci))) 1.

(** [func CellIDFromFace(face int) CellID { return CellID((uint64(face) << posBits) + lsbForLevel(0)) }]
    with [posBits = 61]. *)
Definition CellIDFromFace (face : Z) : CellID :=
  Z.shiftl face 61 + lsbForLevel 0.

(** The six face cells: the covering S2 returns, at level 0, for a cap that
    reaches every face. *)
Definition face_cells : list CellID := CellIDFromFace <$> [0; 1; 2; 3; 4; 5].

(** The two locations of the tests: [cell1] (downtown Chicago) and [cell2]
    (midtown Manhattan), as the doubles Go reads from the literals. *)
Definition chicago_lat : float64 := S754_finite false 5894034712658966 (-47).
Definition chicago_lon : float64 := S754_finite true 6166432885366720 (-46).
Definition manhattan_lat : float64 := S754_finite false 5735484329504325 (-47).
Definition manhattan_lon : float64 := S754_finite true 5205963982970176 (-46).

(** Their leaf cells.  The first is the token [880e2cbc904a0c29] of the
    tests; the second is the leaf below the level-20 cell of token
    [89c25900437] that S2's projection gives for the coordinates. *)
Definition chicago_leaf : CellID := 0x880e2cbc904a0c29.
Definition manhattan_leaf : CellID := 0x89c25900436764af.

(** A geometry that knows these two locations: the first one has its own
    leaf cell and every other location is given the second one's.  A cap
    is kept as its centre and angle, a covering is the six face cells
    whatever the cap, and cell vertices are not modelled (every vertex is
    the point [(0, 0)]). *)
Definition fixture : S2 :=
  Build_S2
    (* LatLng, Point, Cap *)
    (float64 * float64) (float64 * float64) ((float64 * float64) * float64)
    (* LatLngFromDegrees *)
    (λ lat lng, (lat, lng))
    (* CellIDFromLatLng *)
    (λ ll, if float_eq (fst ll) chicago_lat && float_eq (snd ll) chicago_lon
           then chicago_leaf else manhattan_leaf)
    Parent Pos Level
    (* PointFromLatLng, LatLngFromPoint, LatDegrees, LngDegrees *)
    (λ ll, ll) (λ p, p) fst snd
    (* CapFromCenterAngle *)
    (λ center angle, (center, angle))
    (* Covering, FastCovering *)
    (λ _ _, face_cells) (λ _ _, face_cells)
    (* Vertex *)
    (λ _ _, (S754_zero false, S754_zero false)).

End S2Cells.

(** ** The scenarios of the tests, on the fixture geometry *)
Module Scenario.
Import S2Cells.

Definition empty : @Collection Z _ _ string := NewCollection.

(** [cl.Set(0, "0", cell1.lat, cell1.lon)] *)
Definition chicago_only : @Collection Z _ _ string :=
  Collection_Set (s2 := fixture) 0 (Some "0"%string) chicago_lat chicago_lon empty.

(** "Should replace an item's coordinates": the same key set again at
    [cell2]. *)
Definition relocated : @Collection Z _ _ string :=
  Collection_Set (s2 := fixture) 0 (Some "0"%string) manhattan_lat manhattan_lon
    chicago_only.

(** The two items of [TestCollection_ItemsWithinDistance]. *)
Definition two_items : @Collection Z _ _ string :=
  Collection_Set (s2 := fixture) 1 (Some "2"%string) manhattan_lat manhattan_lon
    (Collection_Set (s2 := fixture) 0 (Some "1"%string) chicago_lat chicago_lon empty).

(** A radius of 30,000,000 m, more than half the circumference of the
    Earth: the search cap is the whole sphere. *)
Definition whole_sphere_meters : float64 := S754_finite false 8053063680000000 (-28).

(** Covering parameters that ask for face cells only. *)
Definition face_level_params : SearchCoveringParameters :=
  {| LevelMod := 1; MaxCells := 8; MaxLevel := 0; MinLevel := 0;
     UseFastCovering := false |}.

End Scenario.

(** ** Distances *)

(** [p1.Distance(p2)], the angle between two points in radians, is S2's. *)
Class S2Distance {s2 : S2} := {
  Distance : Point → Point → float64
}.

(** Go's [a * b] on [float64]. *)
Definition float_mul (a b : float64) : float64 := SFmul prec64 emax64 a b.

(** [func EarthDistanceMeters(p1, p2 s2.Point) float64] *)
Definition EarthDistanceMeters {s2 : S2} {s2d : S2Distance} (p1 p2 : Point)
  : float64 :=
  float_mul (Distance p1 p2) EarthRadiusMeters.

(** The sign bit of a float, when it has one. *)
Definition float_sign (x : float64) : option bool :=
  match x with
  | S754_zero s | S754_infinity s | S754_finite s _ _ => Some s
  | S754_nan => None
  end.

(** Go's [a <= b] on [float64]. *)
Definition float_le (a b : float64) : bool := SFleb a b.

(** ** What the search relies on from S2 *)

(** The contract of a region coverer ([Covering] or [FastCovering]) on
    caps: the cells it returns for the cap of centre [center] and angle
    [angle] cover the cap, so a location whose angle to the centre, as
    [Distance] measures it, is at most [angle] lies in one of the cells. *)
Definition covers_cap {s2 : S2} {s2d : S2Distance}
    (coverer : RegionCoverer → Cap → list CellID) : Prop :=
  ∀ rc center angle lat lon,
    float_le (Distance center (PointFromLatLng (LatLngFromDegrees lat lon))) angle
    = true →
    ∃ cell, cell ∈ coverer rc (CapFromCenterAngle center angle)
            ∧ cell_contains cell lat lon.

(** The location [(ilat, ilon)] is within [distanceMeters] of the point
    [(lat, lon)].  Distances on the sphere are angles times
    [EarthRadiusMeters] (as in [EarthDistanceMeters]), so an arc of
    [distanceMeters] spans the angle [distanceMeters / EarthRadiusMeters],
    and the angle between the two points is at most that. *)
Definition within_distance {s2 : S2} {s2d : S2Distance}
    (lat lon distanceMeters ilat ilon : float64) : Prop :=
  float_le (Distance (PointFromLatLng (LatLngFromDegrees lat lon))
                     (PointFromLatLng (LatLngFromDegrees ilat ilon)))
           (float_div distanceMeters EarthRadiusMeters)
  = true.

(** ** A geometry with distances

    The two places of the tests again, now with the angle between them and
    with coverings that depend on the cap: a covering holds, for each of
    the two places inside the cap, the cell of the place at the coverer's
    level ([MaxLevel] for [Covering], [MinLevel] for [FastCovering],
    brought into 0..30), each cell once. *)
Module CapGeometry.
Import S2Cells.

(** The angle between the two places in radians, [0x1.703e337b9a3d7p-3]
    (1145.5 km on the Earth). *)
Definition chicago_manhattan_angle : float64 :=
  S754_finite false 6478198891717591 (-55).

Definition chicago : float64 * float64 := (chicago_lat, chicago_lon).
Definition manhattan : float64 * float64 := (manhattan_lat, manhattan_lon).

Definition is_chicago (p : float64 * float64) : bool :=
  float_eq (fst p) chicago_lat && float_eq (snd p) chicago_lon.

Definition leaf_at (p : float64 * float64) : CellID :=
  if is_chicago p then chicago_leaf else manhattan_leaf.

Definition angle_between (p q : float64 * float64) : float64 :=
  if Bool.eqb (is_chicago p) (is_chicago q) then S754_zero false
  else chicago_manhattan_angle.

Definition coverer_level (level : Z) : Z := Z.max 0 (Z.min 30 level).

Definition cap_cells (level : Z) (cap : (float64 * float64) * float64)
  : list CellID :=
  remove_dups
    ((λ p, Parent (leaf_at p) (coverer_level level))
       <$> filter (λ p, Is_true (float_le (angle_between (fst cap) p) (snd cap)))
             [chicago; manhattan]).

Definition cap_fixture : S2 :=
  Build_S2
    (* LatLng, Point, Cap *)
    (float64 * float64) (float64 * float64) ((float64 * float64) * float64)
    (* LatLngFromDegrees, CellIDFromLatLng *)
    (λ lat lng, (lat, lng)) leaf_at
    Parent Pos Level
    (* PointFromLatLng, LatLngFromPoint, LatDegrees, LngDegrees *)
    (λ ll, ll) (λ p, p) fst snd
    (* CapFromCenterAngle *)
    (λ center angle, (center, angle))
    (* Covering, FastCovering *)
    (λ rc cap, cap_cells (rc_MaxLevel rc) cap)
    (λ rc cap, cap_cells (rc_MinLevel rc) cap)
    (* Vertex *)
    (λ _ _, (S754_zero false, S754_zero false)).

Definition cap_fixture_distance : @S2Distance cap_fixture :=
  @Build_S2Distance cap_fixture angle_between.

(** The collection, the covering parameters and two of the radii of
    [TestCollection_ItemsWithinDistance]: 4,000,000 m and 1,000 m. *)
Definition test_items : @Collection Z _ _ string :=
  Collection_Set (s2 := cap_fixture) 1 (Some "2"%string) manhattan_lat manhattan_lon
    (Collection_Set (s2 := cap_fixture) 0 (Some "1"%string) chicago_lat chicago_lon
       NewCollection).

Definition test_params (fast : bool) : SearchCoveringParameters :=
  {| LevelMod := 1; MaxCells := 5; MaxLevel := 5; MinLevel := 5;
     UseFastCovering := fast |}.

Definition meters_4000000 : float64 := S754_finite false 8589934592000000 (-31).
Definition meters_1000 : float64 := S754_finite false 8796093022208000 (-43).

End CapGeometry.

(** * Properties *)

Section Properties.
Context {K : Type} {K_eq_dec : EqDecision K} {K_countable : Countable K} {V : Type}.
Context {s2 : S2}.

Implicit Types (c : @Collection K _ _ V) (cs : gmap Z (gmap Z (gset K))).
Implicit Types (k key : K) (level pos l p : Z) (idx : itemIndex).

(** ** Reading the cell index *)

Lemma elem_of_cell_at cs l p k :
  k ∈ cell_at cs l p ↔ ∃ s, slot cs l p = Some s ∧ k ∈ s.
Proof.
  unfold cell_at. destruct (slot cs l p) as [s|]; simpl.
  - split; [eauto | by intros (? & [= <-] & ?)].
  - split; [set_solver | by intros (? & [=] & _)].
Qed.

Lemma slot_is_Some_level cs l p s :
  slot cs l p = Some s → is_Some (cs !! l).
Proof. unfold slot. destruct (cs !! l); simpl; [by eexists | done]. Qed.

(** Two cell indexes with the same levels and the same slots are equal. *)
Lemma cells_ext cs1 cs2 :
  (∀ l, is_Some (cs1 !! l) ↔ is_Some (cs2 !! l)) →
  (∀ l p, slot cs1 l p = slot cs2 l p) →
  cs1 = cs2.
Proof.
  intros Hlev Hslot. apply map_eq. intros l.
  specialize (Hlev l). pose proof (Hslot l) as Hl. unfold slot in Hl.
  destruct (cs1 !! l) as [m1|] eqn:E1, (cs2 !! l) as [m2|] eqn:E2; simpl in Hl.
  - f_equal. apply map_eq, Hl.
  - destruct Hlev as [Hlev _]. destruct Hlev as [? [=]]. eauto.
  - destruct Hlev as [_ Hlev]. destruct Hlev as [? [=]]. eauto.
  - done.
Qed.

(** ** Removing a key from a slot *)

Lemma slot_remove_key key cs idx l p :
  slot (remove_key key cs idx) l p
  = if decide (l = cellLevel idx ∧ p = cellPosition idx)
    then (λ s, s ∖ {[key]}) <$> slot cs l p
    else slot cs l p.
Proof.
  unfold slot, remove_key. rewrite lookup_alter.
  destruct (decide (cellLevel idx = l)) as [<-|Hl].
  - destruct (cs !! cellLevel idx) as [m|]; simpl.
    + rewrite lookup_alter.
      destruct (decide (cellPosition idx = p)) as [<-|Hp].
      * by rewrite decide_True.
      * rewrite decide_False; [done | by intros [_ ?]].
    + by destruct (decide _).
  - rewrite decide_False; [done | by intros [? _]].
Qed.

Lemma level_remove_key key cs idx l :
  is_Some (remove_key key cs idx !! l) ↔ is_Some (cs !! l).
Proof.
  unfold remove_key. rewrite lookup_alter.
  destruct (decide (cellLevel idx = l)) as [<-|]; [|done].
  by rewrite fmap_is_Some.
Qed.

Lemma level_remove_keys key indices cs l :
  is_Some (foldl (remove_key key) cs indices !! l) ↔ is_Some (cs !! l).
Proof.
  revert cs. induction indices as [|idx indices IH]; intros cs; simpl; [done|].
  by rewrite IH, level_remove_key.
Qed.

Lemma slot_remove_keys key indices cs l p :
  slot (foldl (remove_key key) cs indices) l p
  = if decide ({| cellPosition := p; cellLevel := l |} ∈ indices)
    then (λ s, s ∖ {[key]}) <$> slot cs l p
    else slot cs l p.
Proof.
  revert cs. induction indices as [|idx indices IH]; intros cs; cbn [foldl].
  - rewrite decide_False; [done | by intros ?%elem_of_nil].
  - rewrite IH, slot_remove_key.
    destruct (decide (l = cellLevel idx ∧ p = cellPosition idx)) as [[-> ->]|Hne].
    + rewrite (decide_True (P := _ ∈ idx :: indices)); [|destruct idx; left].
      destruct (decide _); [|done].
      destruct (slot cs _ _); simpl; [f_equal; set_solver | done].
    + destruct (decide (_ ∈ indices)) as [Hin|Hnin].
      * rewrite decide_True; [done | by right].
      * rewrite decide_False; [done|].
        intros [E|?]%elem_of_cons; [|done].
        subst idx. by apply Hne.
Qed.

Lemma elem_of_remove_keys key indices cs l p k :
  k ∈ cell_at (foldl (remove_key key) cs indices) l p ↔
  k ∈ cell_at cs l p
  ∧ ¬ (k = key ∧ {| cellPosition := p; cellLevel := l |} ∈ indices).
Proof.
  unfold cell_at. rewrite slot_remove_keys.
  destruct (decide _) as [Hin|Hnin]; [|naive_solver].
  destruct (slot cs l p); simpl; set_solver.
Qed.

(** ** Adding a key to a slot *)

Lemma cells_index_at_level key leaf c level :
  cells (index_at_level key leaf c level)
  = <[level := <[Pos (Parent leaf level)
                 := {[key]} ∪ cell_at (cells c) level (Pos (Parent leaf level))]>
                (default ∅ (cells c !! level))]> (cells c).
Proof.
  unfold index_at_level, cell_at, slot. simpl.
  destruct (cells c !! level) as [m|] eqn:Em; simpl.
  - rewrite Em. simpl.
    destruct (m !! Pos (Parent leaf level)) as [s|] eqn:Es; simpl.
    + by rewrite Es.
    + by rewrite lookup_insert_eq, insert_insert_eq.
  - rewrite lookup_insert_eq. simpl. rewrite lookup_empty. simpl.
    by rewrite lookup_insert_eq, !insert_insert_eq.
Qed.

Lemma slot_index_at_level key leaf c level l p :
  slot (cells (index_at_level key leaf c level)) l p
  = if decide (l = level ∧ p = Pos (Parent leaf level))
    then Some ({[key]} ∪ cell_at (cells c) l p)
    else slot (cells c) l p.
Proof.
  rewrite cells_index_at_level. unfold slot at 1.
  destruct (decide (l = level)) as [->|Hl].
  - rewrite lookup_insert_eq. simpl.
    destruct (decide (p = Pos (Parent leaf level))) as [->|Hp].
    + by rewrite lookup_insert_eq, decide_True.
    + rewrite lookup_insert_ne by done.
      rewrite decide_False by (by intros [_ ?]).
      unfold slot. by destruct (cells c !! level).
  - rewrite lookup_insert_ne by done.
    by rewrite decide_False by (by intros [? _]).
Qed.

Lemma level_index_at_level key leaf c level l :
  is_Some (cells (index_at_level key leaf c level) !! l)
  ↔ l = level ∨ is_Some (cells c !! l).
Proof.
  rewrite cells_index_at_level, lookup_insert_is_Some.
  split; [intros [->|[_ ?]]; auto|].
  destruct (decide (level = l)) as [->|]; [by left | intros [->|?]; [done | by right]].
Qed.

Lemma items_index_levels key leaf n c :
  items (index_levels key leaf n c) = items c.
Proof. revert c. induction n as [|n IH]; intros c; simpl; [done | by rewrite IH]. Qed.

Lemma keys_index_levels key leaf n c entries :
  keys c !! key = Some entries →
  keys (index_levels key leaf n c)
  = <[key := entries ++ index_entries leaf n]> (keys c).
Proof.
  revert c entries. induction n as [|n IH]; intros c entries Hk; simpl.
  - rewrite app_nil_r. by rewrite insert_id.
  - assert (Hk' : keys (index_at_level key leaf c (Z.of_nat n)) !! key
                  = Some (entries ++ [{| cellPosition := Pos (Parent leaf (Z.of_nat n));
                                         cellLevel := Z.of_nat n |}])).
    { unfold index_at_level. simpl. rewrite Hk. apply lookup_insert_eq. }
    rewrite (IH _ _ Hk'). unfold index_at_level. simpl. rewrite Hk. simpl.
    by rewrite insert_insert_eq, <- app_assoc.
Qed.

Lemma slot_index_levels key leaf n c l p :
  slot (cells (index_levels key leaf n c)) l p
  = if decide ((0 ≤ l < Z.of_nat n) ∧ p = Pos (Parent leaf l))
    then Some ({[key]} ∪ cell_at (cells c) l p)
    else slot (cells c) l p.
Proof.
  revert c. induction n as [|n IH]; intros c; simpl index_levels.
  - rewrite decide_False; [done | lia].
  - rewrite IH. unfold cell_at. rewrite slot_index_at_level.
    destruct (decide (l = Z.of_nat n ∧ p = Pos (Parent leaf (Z.of_nat n))))
      as [[-> ->]|Hne].
    + rewrite decide_False by lia. rewrite decide_True; [done | lia].
    + destruct (decide ((0 ≤ l < Z.of_nat n) ∧ p = Pos (Parent leaf l))) as [[? ->]|Hn].
      * rewrite decide_True; [done | lia].
      * rewrite decide_False; [done|].
        intros [? ->]. destruct (decide (l = Z.of_nat n)) as [->|]; [by apply Hne|].
        apply Hn. split; [lia | done].
Qed.

Lemma level_index_levels key leaf n c l :
  is_Some (cells (index_levels key leaf n c) !! l)
  ↔ (0 ≤ l < Z.of_nat n) ∨ is_Some (cells c !! l).
Proof.
  revert c. induction n as [|n IH]; intros c; simpl index_levels.
  - split; [by right | intros [?|?]; [lia | done]].
  - rewrite IH, level_index_at_level. split.
    + intros [?|[->|?]]; [left; lia | left; lia | by right].
    + intros [?|?]; [|by right; right].
      destruct (decide (l = Z.of_nat n)) as [->|]; [right; by left | left; lia].
Qed.

Lemma elem_of_index_levels key leaf n c l p k :
  k ∈ cell_at (cells (index_levels key leaf n c)) l p ↔
  k ∈ cell_at (cells c) l p
  ∨ (k = key ∧ (0 ≤ l < Z.of_nat n) ∧ p = Pos (Parent leaf l)).
Proof.
  unfold cell_at at 1. rewrite slot_index_levels.
  destruct (decide _) as [Hin|Hnin]; simpl.
  - rewrite elem_of_union, elem_of_singleton. naive_solver.
  - fold (cell_at (cells c) l p). naive_solver.
Qed.

Lemma elem_of_index_entries leaf n l p :
  {| cellPosition := p; cellLevel := l |} ∈ index_entries leaf n
  ↔ (0 ≤ l < Z.of_nat n) ∧ p = Pos (Parent leaf l).
Proof.
  induction n as [|n IH]; simpl.
  - rewrite elem_of_nil. lia.
  - rewrite elem_of_cons, IH. split.
    + intros [[= -> ->]|[? ->]]; split; (lia || done).
    + intros [? ->]. destruct (decide (l = Z.of_nat n)) as [->|]; [by left | right].
      split; [lia | done].
Qed.

Lemma length_index_entries leaf n : length (index_entries leaf n) = n.
Proof. induction n as [|n IH]; simpl; [done | by rewrite IH]. Qed.

Lemma levels_index_entries leaf n :
  cellLevel <$> index_entries leaf n = Z.of_nat <$> rev (seq 0 n).
Proof.
  induction n as [|n IH]; [done|].
  rewrite seq_S, rev_app_distr. cbn [index_entries rev app fmap list_fmap cellLevel Nat.add].
  f_equal. apply IH.
Qed.

Lemma Forall_index_entries leaf n :
  Forall (λ idx, (0 ≤ cellLevel idx < Z.of_nat n)
                 ∧ cellPosition idx = Pos (Parent leaf (cellLevel idx)))
         (index_entries leaf n).
Proof.
  apply Forall_forall. intros [p l] Hin.
  apply elem_of_index_entries in Hin. simpl. tauto.
Qed.

(** ** [delete] *)

Lemma levels_bound l :
  0 ≤ l < Z.of_nat (Z.to_nat (maxCellLevel + 1)) ↔ 0 ≤ l ≤ maxCellLevel.
Proof. unfold maxCellLevel. lia. Qed.

(** From here on the number of levels is only used through [levels_bound]. *)
Opaque maxCellLevel.

Lemma items_delete key c :
  items (Collection_delete key c) = delete key (items c).
Proof. unfold Collection_delete. by destruct (keys c !! key). Qed.

Lemma keys_delete key c :
  keys (Collection_delete key c) = delete key (keys c).
Proof.
  unfold Collection_delete. destruct (keys c !! key) eqn:E; simpl; [done|].
  by rewrite delete_id.
Qed.

(** [delete] touches no other key's membership, whatever the state. *)
Lemma elem_of_cells_delete_ne key c k l p :
  k ≠ key →
  k ∈ cell_at (cells (Collection_delete key c)) l p ↔ k ∈ cell_at (cells c) l p.
Proof.
  intros Hne. unfold Collection_delete.
  destruct (keys c !! key) as [indices|]; simpl; [|done].
  rewrite elem_of_remove_keys. tauto.
Qed.

Lemma inv_keys_Some c k r :
  index_inv c → items c !! k = Some r →
  keys c !! k = Some (index_entries (leaf_of r) (Z.to_nat (maxCellLevel + 1))).
Proof. intros Hinv Hk. by rewrite (inv_keys c Hinv), Hk. Qed.

Lemma inv_keys_None c k :
  index_inv c → items c !! k = None ↔ keys c !! k = None.
Proof.
  intros Hinv. rewrite (inv_keys c Hinv). by destruct (items c !! k).
Qed.

Lemma index_inv_sync c : index_inv c → index_sync c.
Proof.
  intros Hinv. split.
  - intros k. by apply inv_keys_None.
  - intros k l p (r & Hr & Hl & ->)%(inv_cells c Hinv).
    eexists. split; [by apply inv_keys_Some|].
    apply elem_of_index_entries. by rewrite levels_bound.
Qed.

(** In a synchronised collection [delete] removes the key from every slot. *)
Lemma elem_of_cells_delete key c k l p :
  index_sync c →
  k ∈ cell_at (cells (Collection_delete key c)) l p
  ↔ k ≠ key ∧ k ∈ cell_at (cells c) l p.
Proof.
  intros Hsync. destruct (decide (k = key)) as [->|Hne].
  2: { rewrite elem_of_cells_delete_ne by done. tauto. }
  split; [|tauto]. intros Hin. exfalso. revert Hin.
  unfold Collection_delete.
  destruct (keys c !! key) as [indices|] eqn:Ek; simpl.
  - rewrite elem_of_remove_keys. intros [Hin Hnot]. apply Hnot. split; [done|].
    apply (sync_cells c Hsync) in Hin as (entries & Hentries & Hin). congruence.
  - intros Hin. apply (sync_cells c Hsync) in Hin as (entries & Hentries & _).
    congruence.
Qed.

Lemma index_sync_new : index_sync (NewCollection (K := K) (V := V)).
Proof.
  split.
  - intros k. simpl. by rewrite !lookup_empty.
  - intros k l p. unfold cell_at, slot. simpl. rewrite !lookup_empty. simpl.
    set_solver.
Qed.

Lemma index_sync_delete key c :
  index_sync c → index_sync (Collection_delete key c).
Proof.
  intros Hsync. split.
  - intros k. rewrite keys_delete, items_delete, !lookup_delete.
    destruct (decide (key = k)); [done | apply (sync_keys c Hsync)].
  - intros k l p [Hne Hin]%elem_of_cells_delete; [|done].
    rewrite keys_delete, lookup_delete_ne by done.
    by apply (sync_cells c Hsync).
Qed.

Lemma index_inv_new : index_inv (NewCollection (K := K) (V := V)).
Proof.
  split.
  - intros k. simpl. by rewrite !lookup_empty.
  - intros k l p. unfold cell_at, slot. simpl. rewrite !lookup_empty. simpl.
    split; [set_solver | by intros (? & [=] & _)].
Qed.

Lemma index_inv_delete key c :
  index_inv c → index_inv (Collection_delete key c).
Proof.
  intros Hinv. split.
  - intros k. rewrite keys_delete, items_delete, !lookup_delete.
    destruct (decide (key = k)); [done | apply (inv_keys c Hinv)].
  - intros k l p. rewrite elem_of_cells_delete by by apply index_inv_sync.
    rewrite items_delete, (inv_cells c Hinv).
    destruct (decide (k = key)) as [->|Hne].
    + rewrite lookup_delete_eq. split; [tauto | by intros (? & [=] & _)].
    + rewrite lookup_delete_ne by done. tauto.
Qed.

(** ** [Set] *)

Lemma same_location_true c key lat lon :
  same_location (items c !! key) lat lon = true →
  ∃ r, items c !! key = Some r
       ∧ float_eq (latitude r) lat = true ∧ float_eq (longitude r) lon = true.
Proof.
  unfold same_location. destruct (items c !! key) as [r|]; [|done].
  intros [? ?]%andb_true_iff. eauto.
Qed.

Lemma Set_same_location key v lat lon c :
  same_location (items c !! key) lat lon = true →
  Collection_Set key v lat lon c
  = {| cells := cells c; keys := keys c;
       items := <[key := {| contents := v; latitude := lat; longitude := lon |}]> (items c) |}.
Proof. intros Hs. unfold Collection_Set. by rewrite Hs. Qed.

Lemma Set_other_location key v lat lon c :
  same_location (items c !! key) lat lon = false →
  Collection_Set key v lat lon c
  = index_levels key (leafCellID lat lon) (Z.to_nat (maxCellLevel + 1))
      {| cells := cells (Collection_delete key c);
         keys := <[key := []]> (keys (Collection_delete key c));
         items := <[key := {| contents := v; latitude := lat; longitude := lon |}]>
                    (items (Collection_delete key c)) |}.
Proof. intros Hs. unfold Collection_Set. by rewrite Hs. Qed.

(** Whichever branch it takes, [Set] stores the new record. *)
Lemma items_Set key v lat lon c :
  items (Collection_Set key v lat lon c)
  = <[key := {| contents := v; latitude := lat; longitude := lon |}]> (items c).
Proof.
  destruct (same_location (items c !! key) lat lon) eqn:Hs.
  - by rewrite Set_same_location.
  - rewrite Set_other_location by done.
    rewrite items_index_levels. simpl. by rewrite items_delete, insert_delete_eq.
Qed.

Lemma keys_Set_other_location key v lat lon c :
  same_location (items c !! key) lat lon = false →
  keys (Collection_Set key v lat lon c)
  = <[key := index_entries (leafCellID lat lon) (Z.to_nat (maxCellLevel + 1))]> (keys c).
Proof.
  intros Hs. rewrite Set_other_location by done.
  erewrite keys_index_levels; [|simpl; apply lookup_insert_eq].
  simpl. by rewrite insert_insert_eq, keys_delete, insert_delete_eq.
Qed.

Lemma elem_of_cells_Set_other_location key v lat lon c k l p :
  index_sync c →
  same_location (items c !! key) lat lon = false →
  k ∈ cell_at (cells (Collection_Set key v lat lon c)) l p
  ↔ (k ≠ key ∧ k ∈ cell_at (cells c) l p)
    ∨ (k = key ∧ 0 ≤ l ≤ maxCellLevel ∧ p = Pos (Parent (leafCellID lat lon) l)).
Proof.
  intros Hinv Hs. rewrite Set_other_location by done.
  rewrite elem_of_index_levels. simpl.
  by rewrite elem_of_cells_delete, levels_bound.
Qed.

Lemma index_inv_Set key v lat lon c :
  leaf_respects_float_eq →
  index_inv c → index_inv (Collection_Set key v lat lon c).
Proof.
  intros Hleaf Hinv.
  destruct (same_location (items c !! key) lat lon) eqn:Hs.
  - destruct (same_location_true _ _ _ _ Hs) as (r & Hr & Hlat & Hlon).
    assert (Hsame : leaf_of {| contents := v; latitude := lat; longitude := lon |}
                    = leaf_of r) by (symmetry; by apply Hleaf).
    rewrite Set_same_location by done. split; simpl.
    + intros k. rewrite (inv_keys c Hinv).
      destruct (decide (k = key)) as [->|Hne].
      * rewrite lookup_insert_eq, Hr. simpl. by rewrite Hsame.
      * by rewrite lookup_insert_ne.
    + intros k l p. rewrite (inv_cells c Hinv).
      destruct (decide (k = key)) as [->|Hne].
      * rewrite lookup_insert_eq, Hr. split.
        -- intros (? & [= <-] & ? & ->). eexists. split; [done|]. by rewrite Hsame.
        -- intros (? & [= <-] & ? & ->). eexists. split; [done|]. by rewrite Hsame.
      * by rewrite lookup_insert_ne.
  - split.
    + intros k. rewrite keys_Set_other_location, items_Set by done.
      destruct (decide (k = key)) as [->|Hne].
      * by rewrite !lookup_insert_eq.
      * rewrite !lookup_insert_ne by done. apply (inv_keys c Hinv).
    + intros k l p.
      rewrite elem_of_cells_Set_other_location, items_Set
        by (done || by apply index_inv_sync).
      rewrite (inv_cells c Hinv).
      destruct (decide (k = key)) as [->|Hne].
      * rewrite lookup_insert_eq. split.
        -- intros [[? _]|(_ & ? & ->)]; [done|]. eexists. by split.
        -- intros (? & [= <-] & ? & ->). right. by split.
      * rewrite lookup_insert_ne by done. split; [intros [[_ ?]|[? _]]; done | by left].
Qed.

Lemma index_sync_Set key v lat lon c :
  index_sync c → index_sync (Collection_Set key v lat lon c).
Proof.
  intros Hsync.
  destruct (same_location (items c !! key) lat lon) eqn:Hs.
  - destruct (same_location_true _ _ _ _ Hs) as (r & Hr & _).
    rewrite Set_same_location by done. split; simpl.
    + intros k. destruct (decide (k = key)) as [->|Hne].
      * rewrite lookup_insert_eq. split; [done|].
        intros Hk%(sync_keys c Hsync). congruence.
      * rewrite lookup_insert_ne by done. apply (sync_keys c Hsync).
    + apply (sync_cells c Hsync).
  - split.
    + intros k. rewrite keys_Set_other_location, items_Set by done.
      destruct (decide (k = key)) as [->|Hne].
      * by rewrite !lookup_insert_eq.
      * rewrite !lookup_insert_ne by done. apply (sync_keys c Hsync).
    + intros k l p. rewrite elem_of_cells_Set_other_location by done.
      rewrite keys_Set_other_location by done.
      intros [[Hne Hin]|(-> & Hl & ->)].
      * rewrite lookup_insert_ne by done. by apply (sync_cells c Hsync).
      * rewrite lookup_insert_eq. eexists. split; [done|].
        apply elem_of_index_entries. by rewrite levels_bound.
Qed.

Lemma reachable_index_sync c : reachable c → index_sync c.
Proof.
  intros Hreach. induction Hreach.
  - apply index_sync_new.
  - by apply index_sync_Set.
  - by apply index_sync_delete.
Qed.

(** Every collection built through the API is consistent. *)
Lemma reachable_index_inv c :
  leaf_respects_float_eq → reachable c → index_inv c.
Proof.
  intros Hleaf Hreach. induction Hreach.
  - apply index_inv_new.
  - by apply index_inv_Set.
  - by apply index_inv_delete.
Qed.

(** * The claims about [Set], [Delete] and [ItemByKey] *)

(** C10. [Delete] frames other keys: whatever the collection, deleting [k]
    leaves the item record, the reverse-index list and every cell-index
    membership of any other key [k2] as they were. *)
Theorem Delete_frames_other_keys c k k2 :
  k ≠ k2 →
  items (Collection_Delete k c) !! k2 = items c !! k2
  ∧ keys (Collection_Delete k c) !! k2 = keys c !! k2
  ∧ ∀ level pos,
      k2 ∈ cell_at (cells (Collection_Delete k c)) level pos
      ↔ k2 ∈ cell_at (cells c) level pos.
Proof.
  intros Hne. unfold Collection_Delete. repeat split.
  - by rewrite items_delete, lookup_delete_ne.
  - by rewrite keys_delete, lookup_delete_ne.
  - by apply elem_of_cells_delete_ne.
  - by apply elem_of_cells_delete_ne.
Qed.

(** C5. Deleting an absent key is a no-op: in every collection built
    through the API, [Delete k] for a key without a record returns the
    collection unchanged: same item records, same reverse index, same cell
    index. *)
Theorem Delete_absent_is_noop c k :
  reachable c → items c !! k = None → Collection_Delete k c = c.
Proof.
  intros Hsync%reachable_index_sync Hk.
  unfold Collection_Delete, Collection_delete.
  rewrite (proj1 (sync_keys c Hsync k) Hk), delete_id by done.
  by destruct c.
Qed.

(** C7. Set then Delete: after [Set(k, v, lat, lon)] and [Delete(k)] on a
    collection built through the API, [ItemByKey(k)] is nil, the key has
    no reverse-index list, and no slot of the cell index, at any level and
    position, contains the key. *)
Theorem Set_then_Delete_forgets_key c k v lat lon :
  reachable c →
  let c' := Collection_Delete k (Collection_Set k v lat lon c) in
  Collection_ItemByKey k c' = None
  ∧ keys c' !! k = None
  ∧ ∀ level pos, k ∉ cell_at (cells c') level pos.
Proof.
  intros Hreach c'. subst c'. unfold Collection_Delete, Collection_ItemByKey.
  rewrite items_delete, keys_delete, !lookup_delete_eq. repeat split.
  intros level pos [Hne _]%elem_of_cells_delete; [done|].
  by apply index_sync_Set, reachable_index_sync.
Qed.

(** C9. A stored nil cannot be told from an absent key: [ItemByKey] of a
    key stored with nil contents returns nil, which is also what it returns
    for a key that has no record. *)
Theorem ItemByKey_nil_contents_like_absent c k lat lon c' k' :
  items c' !! k' = None →
  Collection_ItemByKey k (Collection_Set k None lat lon c) = None
  ∧ Collection_ItemByKey k' c' = None
  ∧ Collection_ItemByKey k (Collection_Set k None lat lon c)
    = Collection_ItemByKey k' c'.
Proof.
  intros Hk'. unfold Collection_ItemByKey.
  by rewrite items_Set, lookup_insert_eq, Hk'.
Qed.

(** C2. Index completeness: after any sequence of [Set] and [Delete], a
    key with a record has a reverse-index list of [maxCellLevel + 1] (31)
    entries, one per level from 30 down to 0; every entry names the
    position of the ancestor, at its level, of the leaf cell of the stored
    location, and the slot it names contains the key; and these are the
    only slots of the cell index that contain the key. *)
Theorem index_completeness c k r :
  leaf_respects_float_eq →
  reachable c →
  items c !! k = Some r →
  ∃ entries,
    keys c !! k = Some entries
    ∧ length entries = Z.to_nat (maxCellLevel + 1)
    ∧ cellLevel <$> entries = Z.of_nat <$> rev (seq 0 (Z.to_nat (maxCellLevel + 1)))
    ∧ Forall (λ idx,
        cellPosition idx
        = Pos (Parent (leafCellID (latitude r) (longitude r)) (cellLevel idx))
        ∧ k ∈ cell_at (cells c) (cellLevel idx) (cellPosition idx)) entries
    ∧ ∀ level pos,
        k ∈ cell_at (cells c) level pos
        ↔ 0 ≤ level ≤ maxCellLevel
          ∧ pos = Pos (Parent (leafCellID (latitude r) (longitude r)) level).
Proof.
  intros Hleaf Hreach Hr.
  pose proof (reachable_index_inv c Hleaf Hreach) as Hinv.
  assert (Hcells : ∀ level pos,
             k ∈ cell_at (cells c) level pos
             ↔ 0 ≤ level ≤ maxCellLevel ∧ pos = Pos (Parent (leaf_of r) level)).
  { intros level pos. rewrite (inv_cells c Hinv). split.
    - intros (r' & Hr' & ?). by assert (r' = r) as -> by congruence.
    - intros ?. by exists r. }
  eexists. split; [by apply inv_keys_Some|].
  split; [apply length_index_entries|].
  split; [apply levels_index_entries|].
  split; [|exact Hcells].
  eapply Forall_impl; [apply Forall_index_entries|].
  intros idx [Hl Hp]. split; [exact Hp|].
  apply Hcells. rewrite <- levels_bound. by split.
Qed.

(** C3, as amended.  After [Set(k, v, lat1, lon1)] and then
    [Set(k, v', lat2, lon2)] the key sits in exactly the slots of the
    ancestors of the leaf cell of [(lat2, lon2)], and the reverse index
    lists exactly those; a slot of [(lat1, lon1)] still contains the key
    only where it is also a slot of [(lat2, lon2)]. *)
Theorem relocation_keeps_only_new_cells c k v v' lat1 lon1 lat2 lon2 :
  leaf_respects_float_eq →
  reachable c →
  let c2 := Collection_Set k v' lat2 lon2 (Collection_Set k v lat1 lon1 c) in
  let leaf1 := leafCellID lat1 lon1 in
  let leaf2 := leafCellID lat2 lon2 in
  (∀ level pos,
     k ∈ cell_at (cells c2) level pos
     ↔ 0 ≤ level ≤ maxCellLevel ∧ pos = Pos (Parent leaf2 level))
  ∧ (∃ entries,
       keys c2 !! k = Some entries
       ∧ ∀ idx, idx ∈ entries
           ↔ 0 ≤ cellLevel idx ≤ maxCellLevel
             ∧ cellPosition idx = Pos (Parent leaf2 (cellLevel idx)))
  ∧ (∀ level, 0 ≤ level ≤ maxCellLevel →
       k ∈ cell_at (cells c2) level (Pos (Parent leaf1 level))
       ↔ Pos (Parent leaf1 level) = Pos (Parent leaf2 level)).
Proof.
  intros Hleaf Hreach c2 leaf1 leaf2.
  assert (Hinv : index_inv c2).
  { apply reachable_index_inv; [done|]. by do 2 apply reachable_Set. }
  assert (Hr : items c2 !! k
               = Some {| contents := v'; latitude := lat2; longitude := lon2 |}).
  { subst c2. by rewrite items_Set, lookup_insert_eq. }
  assert (Hcells : ∀ level pos,
             k ∈ cell_at (cells c2) level pos
             ↔ 0 ≤ level ≤ maxCellLevel ∧ pos = Pos (Parent leaf2 level)).
  { intros level pos. rewrite (inv_cells c2 Hinv), Hr. split.
    - by intros (? & [= <-] & ?).
    - intros ?. eexists. by split. }
  split; [exact Hcells|]. split.
  - eexists. split; [by apply inv_keys_Some|].
    intros [p l]. rewrite elem_of_index_entries, levels_bound. simpl.
    split; intros [? ?]; by split.
  - intros level Hl. rewrite Hcells. tauto.
Qed.

(** ** Re-indexing a key where it already is *)

Lemma level_cells_delete key c l :
  is_Some (cells (Collection_delete key c) !! l) ↔ is_Some (cells c !! l).
Proof.
  unfold Collection_delete. destruct (keys c !! key); simpl; [|done].
  apply level_remove_keys.
Qed.

Lemma slot_cells_delete key c indices l p :
  keys c !! key = Some indices →
  slot (cells (Collection_delete key c)) l p
  = if decide ({| cellPosition := p; cellLevel := l |} ∈ indices)
    then (λ s, s ∖ {[key]}) <$> slot (cells c) l p
    else slot (cells c) l p.
Proof.
  intros Hk. unfold Collection_delete. rewrite Hk. simpl. apply slot_remove_keys.
Qed.

Lemma Collection_eq c1 c2 :
  cells c1 = cells c2 → keys c1 = keys c2 → items c1 = items c2 → c1 = c2.
Proof. destruct c1, c2. simpl. by intros -> -> ->. Qed.

(** Deleting a key and indexing it again at the location it already had
    gives back the same cell index and the same reverse index. *)
Lemma Set_other_location_same_leaf key v lat lon c r :
  index_inv c →
  items c !! key = Some r →
  leaf_of r = leafCellID lat lon →
  same_location (items c !! key) lat lon = false →
  cells (Collection_Set key v lat lon c) = cells c
  ∧ keys (Collection_Set key v lat lon c) = keys c.
Proof.
  intros Hinv Hr Hleaf Hs.
  pose proof (inv_keys_Some c key r Hinv Hr) as Hk. rewrite Hleaf in Hk.
  assert (Hmem : ∀ l, 0 ≤ l ≤ maxCellLevel →
            ∃ s, slot (cells c) l (Pos (Parent (leafCellID lat lon) l)) = Some s
                 ∧ key ∈ s).
  { intros l Hl. apply elem_of_cell_at, (inv_cells c Hinv).
    exists r. by rewrite Hleaf. }
  split.
  2: { rewrite keys_Set_other_location by done. by apply insert_id. }
  rewrite Set_other_location by done. apply cells_ext.
  - intros l. rewrite level_index_levels. simpl. rewrite level_cells_delete.
    split; [|by right]. intros [Hl%levels_bound|?]; [|done].
    destruct (Hmem l Hl) as (s & Hslot & _). by eapply slot_is_Some_level.
  - intros l p. rewrite slot_index_levels. simpl.
    unfold cell_at. rewrite (slot_cells_delete _ _ _ _ _ Hk).
    destruct (decide ((0 ≤ l < Z.of_nat (Z.to_nat (maxCellLevel + 1)))
                      ∧ p = Pos (Parent (leafCellID lat lon) l))) as [[Hl ->]|Hnot].
    + rewrite decide_True by by apply elem_of_index_entries.
      destruct (Hmem l (proj1 (levels_bound l) Hl)) as (s & -> & Hin). simpl.
      f_equal. symmetry. by apply union_difference_singleton_L.
    + rewrite decide_False; [done|]. by rewrite elem_of_index_entries.
Qed.

(** C4. Contents-only update: for a key already stored at [(lat, lon)] in
    a collection built through the API, [Set] with exactly the same
    latitude and longitude replaces the record's contents and leaves the
    cell index and the reverse index as they were, for this key and for
    every other one. *)
Theorem Set_same_location_replaces_contents_only c k v1 v2 lat lon :
  leaf_respects_float_eq →
  reachable c →
  items c !! k = Some {| contents := v1; latitude := lat; longitude := lon |} →
  Collection_Set k v2 lat lon c
  = {| cells := cells c;
       keys := keys c;
       items := <[k := {| contents := v2; latitude := lat; longitude := lon |}]>
                  (items c) |}.
Proof.
  intros Hleaf Hreach Hr.
  destruct (same_location (items c !! k) lat lon) eqn:Hs.
  - by apply Set_same_location.
  - pose proof (reachable_index_inv c Hleaf Hreach) as Hinv.
    destruct (Set_other_location_same_leaf k v2 lat lon c _ Hinv Hr eq_refl Hs)
      as [Hcells Hkeys].
    apply Collection_eq; simpl; [done | done | apply items_Set].
Qed.

(** * The radius search *)

Lemma ItemsWithinDistance_loop c (cellUnion : list CellID) foundItems cellBounds :
  foldl (λ '(foundItems, cellBounds) cell,
           (foundItems ++ found_in_cell c cell,
            cellBounds ++ [cell_polygon cell]))
        (foundItems, cellBounds) cellUnion
  = (foundItems ++ (cellUnion ≫= found_in_cell c),
     cellBounds ++ (cell_polygon <$> cellUnion)).
Proof.
  revert foundItems cellBounds.
  induction cellUnion as [|cell cellUnion IH]; intros foundItems cellBounds; simpl.
  - by rewrite !app_nil_r.
  - by rewrite IH, <- !app_assoc.
Qed.

(** The search returns, cell after cell of the covering, the contents of
    the keys in the cell's slot, and one polygon per covering cell. *)
Lemma ItemsWithinDistance_eq lat lon distanceMeters params c :
  Collection_ItemsWithinDistance lat lon distanceMeters params c
  = (search_covering lat lon distanceMeters params ≫= found_in_cell c,
     cell_polygon <$> search_covering lat lon distanceMeters params).
Proof. unfold Collection_ItemsWithinDistance. by rewrite ItemsWithinDistance_loop. Qed.

Lemma elem_of_found_in_cell c cell k r :
  items c !! k = Some r →
  k ∈ cell_at (cells c) (Level cell) (Pos cell) →
  contents r ∈ found_in_cell c cell.
Proof.
  intros Hr Hin. unfold found_in_cell. apply list_elem_of_fmap.
  exists k. split; [|by apply elem_of_elements].
  unfold contents_of. by rewrite Hr.
Qed.

Lemma found_contents c (cellUnion : list CellID) :
  cellUnion ≫= found_in_cell c = contents_of c <$> found_keys c cellUnion.
Proof.
  unfold found_keys. induction cellUnion as [|cell cellUnion IH]; [done|].
  cbn [mbind list_bind]. by rewrite fmap_app, <- IH.
Qed.

(** The order of the inner loop only permutes the result: every list the
    search may return has the elements of the one [elements] gives, and
    that one is among them. *)
Lemma visits_found_keys c (cellUnion : list CellID) (visits : list (list K)) :
  Forall2 (λ cell visited,
             range_order (cell_at (cells c) (Level cell) (Pos cell)) visited)
          cellUnion visits →
  visits ≫= fmap (contents_of c) ≡ₚ contents_of c <$> found_keys c cellUnion.
Proof.
  unfold found_keys, range_order.
  induction 1 as [|cell visited cellUnion visits Hvisited _ IH]; [done|].
  cbn [mbind list_bind]. rewrite fmap_app, IH. by rewrite Hvisited.
Qed.

Lemma ItemsWithinDistance_may_return_Permutation
    lat lon distanceMeters params c foundItems :
  ItemsWithinDistance_may_return lat lon distanceMeters params c foundItems →
  foundItems ≡ₚ (Collection_ItemsWithinDistance lat lon distanceMeters params c).1.
Proof.
  intros (visits & Hvisits & ->). rewrite ItemsWithinDistance_eq. simpl.
  rewrite found_contents. by apply visits_found_keys.
Qed.

Lemma ItemsWithinDistance_may_return_elements lat lon distanceMeters params c :
  ItemsWithinDistance_may_return lat lon distanceMeters params c
    (Collection_ItemsWithinDistance lat lon distanceMeters params c).1.
Proof.
  rewrite ItemsWithinDistance_eq. simpl.
  exists ((λ cell, elements (cell_at (cells c) (Level cell) (Pos cell)))
            <$> search_covering lat lon distanceMeters params).
  split.
  - apply Forall2_fmap_r, Forall_Forall2_diag, Forall_forall.
    intros cell _. unfold range_order. simpl. reflexivity.
  - generalize (search_covering lat lon distanceMeters params).
    intros cellUnion. induction cellUnion as [|cell cellUnion IH]; [done|].
    cbn [mbind list_bind fmap list_fmap]. by rewrite IH.
Qed.

(** C1. Radius-search superset.  S2's coverers cover the caps they are
    given ([covers_cap]) and S2 gives float-equal coordinates one leaf
    cell.  Then, in a collection built through the API, the contents of
    every stored item whose angle to the query point is at most
    [distanceMeters / EarthRadiusMeters], that is, which is within
    [distanceMeters] on the sphere of radius [EarthRadiusMeters], are in
    the list [ItemsWithinDistance] returns, in whichever order the inner
    loop ranges over the keys of a cell. *)
Theorem ItemsWithinDistance_superset {s2d : S2Distance}
    c k r lat lon distanceMeters params :
  leaf_respects_float_eq →
  covers_cap Covering →
  covers_cap FastCovering →
  reachable c →
  items c !! k = Some r →
  within_distance lat lon distanceMeters (latitude r) (longitude r) →
  contents r ∈ (Collection_ItemsWithinDistance lat lon distanceMeters params c).1
  ∧ ∀ foundItems,
      ItemsWithinDistance_may_return lat lon distanceMeters params c foundItems →
      contents r ∈ foundItems.
Proof.
  intros Hleaf Hcovering Hfast Hreach Hr Hwithin.
  pose proof (reachable_index_inv c Hleaf Hreach) as Hinv.
  assert (Hcell : ∃ cell, cell ∈ search_covering lat lon distanceMeters params
                          ∧ cell_contains cell (latitude r) (longitude r)).
  { unfold search_covering, NewPointFromLatLng.
    destruct (UseFastCovering params).
    - exact (Hfast _ _ _ _ _ Hwithin).
    - exact (Hcovering _ _ _ _ _ Hwithin). }
  destruct Hcell as (cell & Hcell & Hlevel & Hparent).
  assert (Hfound : contents r
            ∈ (Collection_ItemsWithinDistance lat lon distanceMeters params c).1).
  { rewrite ItemsWithinDistance_eq. simpl. apply list_elem_of_bind.
    exists cell. split; [|done].
    apply (elem_of_found_in_cell c cell k r Hr).
    apply (inv_cells c Hinv). exists r. split; [done|]. split; [done|].
    unfold leaf_of. by rewrite Hparent. }
  split; [done|].
  intros foundItems Hmay%ItemsWithinDistance_may_return_Permutation.
  by rewrite Hmay.
Qed.

(** ** How often a key is found *)

Lemma occurrences_app k (l1 l2 : list K) :
  occurrences k (l1 ++ l2) = (occurrences k l1 + occurrences k l2)%nat.
Proof. unfold occurrences. by rewrite filter_app, length_app. Qed.

Lemma occurrences_not_elem_of k (l : list K) :
  k ∉ l → occurrences k l = 0%nat.
Proof.
  unfold occurrences. induction l as [|x l IH]; [done|].
  intros [Hx Hl]%not_elem_of_cons. rewrite filter_cons_False by congruence.
  by apply IH.
Qed.

Lemma occurrences_NoDup k (l : list K) :
  NoDup l → (occurrences k l ≤ 1)%nat.
Proof.
  induction 1 as [|x l Hx Hl IH]; [unfold occurrences; simpl; lia|].
  change (x :: l) with ([x] ++ l). rewrite occurrences_app.
  destruct (decide (x = k)) as [->|Hne].
  - rewrite (occurrences_not_elem_of k l Hx). unfold occurrences.
    rewrite filter_cons_True by done. simpl. lia.
  - unfold occurrences at 1. rewrite filter_cons_False by done. simpl. lia.
Qed.

(** Where the position of a covering cell identifies the cell among the
    ancestors of an item's leaf, and no two cells of the covering contain
    the same leaf, the item's key is found at most once.  Both conditions
    hold for an S2 covering that stays on the item's face; the second is
    the disjointness of the covering, the first is what [Pos] loses across
    faces. *)
Lemma found_keys_at_most_once c k r (cellUnion : list CellID) :
  index_inv c →
  items c !! k = Some r →
  NoDup cellUnion →
  (∀ cell, cell ∈ cellUnion →
     Pos cell = Pos (Parent (leaf_of r) (Level cell)) →
     cell = Parent (leaf_of r) (Level cell)) →
  (∀ cell1 cell2, cell1 ∈ cellUnion → cell2 ∈ cellUnion →
     cell1 = Parent (leaf_of r) (Level cell1) →
     cell2 = Parent (leaf_of r) (Level cell2) →
     cell1 = cell2) →
  (occurrences k (found_keys c cellUnion) ≤ 1)%nat.
Proof.
  intros Hinv Hr Hnodup Hpos Hdisjoint.
  assert (Hfound : ∀ cell, cell ∈ cellUnion →
            k ∈ cell_at (cells c) (Level cell) (Pos cell) →
            cell = Parent (leaf_of r) (Level cell)).
  { intros cell Hcell (r' & Hr' & _ & Hp)%(inv_cells c Hinv).
    assert (r' = r) as -> by congruence. by apply Hpos. }
  clear Hpos. unfold found_keys.
  induction Hnodup as [|cell cellUnion Hcell Hnodup IH]; [unfold occurrences; simpl; lia|].
  cbn [mbind list_bind]. rewrite occurrences_app.
  destruct (decide (k ∈ cell_at (cells c) (Level cell) (Pos cell))) as [Hin|Hnin].
  - pose proof (occurrences_NoDup k _
                  (NoDup_elements (cell_at (cells c) (Level cell) (Pos cell)))).
    rewrite (occurrences_not_elem_of k (cellUnion ≫= _)); [lia|].
    intros (cell' & Hk & Hcell')%list_elem_of_bind.
    apply elem_of_elements in Hk.
    assert (cell = cell') as ->; [|done].
    apply Hdisjoint.
    + by left.
    + by right.
    + apply Hfound; [by left | done].
    + apply Hfound; [by right | done].
  - rewrite (occurrences_not_elem_of k (elements _)) by by rewrite elem_of_elements.
    apply IH.
    + intros c1 c2 H1 H2. apply Hdisjoint; by right.
    + intros c1 H1. apply Hfound. by right.
Qed.

(** * Enumeration *)

(** C8. Pagination bounds: [GetItems(pageSize, startIndex)] returns at
    most [pageSize] contents for a page size that is not negative, and
    returns the empty sequence when [startIndex] is at least the number of
    stored items. *)
Theorem GetItems_bounds c pageSize startIndex :
  (0 ≤ pageSize →
   Z.of_nat (length (Collection_GetItems pageSize startIndex c)) ≤ pageSize)
  ∧ (Z.of_nat (size (items c)) ≤ startIndex →
     Collection_GetItems pageSize startIndex c = []).
Proof.
  unfold Collection_GetItems. split.
  - intros Hp. rewrite length_take. lia.
  - intros Hs. rewrite drop_ge; [by rewrite take_nil|].
    rewrite length_fmap, length_map_to_list. lia.
Qed.

Transparent maxCellLevel.

End Properties.

(** * Further properties of the operations *)

Section Operations.
Context {K : Type} {K_eq_dec : EqDecision K} {K_countable : Countable K} {V : Type}.
Context {s2 : S2}.

Implicit Types (c : @Collection K _ _ V) (cs : gmap Z (gmap Z (gset K))).
Implicit Types (k key : K) (level pos l p : Z) (idx : itemIndex).

Opaque maxCellLevel.

(** ** Lookups after [Set] and [Delete] *)

(** [Set] then [ItemByKey]: the key reads back the contents just stored,
    every other key reads what it read before; whatever the collection and
    whichever branch [Set] takes. *)
Theorem ItemByKey_after_Set c k v lat lon :
  Collection_ItemByKey k (Collection_Set k v lat lon c) = v
  ∧ ∀ k2, k2 ≠ k →
      Collection_ItemByKey k2 (Collection_Set k v lat lon c)
      = Collection_ItemByKey k2 c.
Proof.
  unfold Collection_ItemByKey. rewrite items_Set. split.
  - by rewrite lookup_insert_eq.
  - intros k2 Hne. by rewrite lookup_insert_ne.
Qed.

(** [Set] frames other keys: whatever the collection, setting [k] leaves
    the record, the reverse-index list and every cell-index membership of
    any other key as they were. *)
Theorem Set_frames_other_keys c k v lat lon k2 :
  k ≠ k2 →
  items (Collection_Set k v lat lon c) !! k2 = items c !! k2
  ∧ keys (Collection_Set k v lat lon c) !! k2 = keys c !! k2
  ∧ ∀ level pos,
      k2 ∈ cell_at (cells (Collection_Set k v lat lon c)) level pos
      ↔ k2 ∈ cell_at (cells c) level pos.
Proof.
  intros Hne. split; [by rewrite items_Set, lookup_insert_ne|].
  destruct (same_location (items c !! k) lat lon) eqn:Hs.
  - by rewrite Set_same_location.
  - split.
    + by rewrite keys_Set_other_location, lookup_insert_ne.
    + intros level pos. rewrite Set_other_location by done.
      rewrite elem_of_index_levels. simpl.
      rewrite elem_of_cells_delete_ne by done. split; [|by left].
      intros [?|[? _]]; [done | congruence].
Qed.

(** [Delete] is idempotent, on every collection: a second [Delete] of the
    same key changes nothing. *)
Theorem Delete_idempotent c k :
  Collection_Delete k (Collection_Delete k c) = Collection_Delete k c.
Proof.
  unfold Collection_Delete.
  apply Collection_eq.
  - unfold Collection_delete at 1. rewrite keys_delete, lookup_delete_eq. done.
  - by rewrite !keys_delete, delete_delete_eq.
  - by rewrite !items_delete, delete_delete_eq.
Qed.

(** In a collection built through the API the reverse index and the item
    records have the same keys. *)
Theorem reachable_keys_dom c :
  reachable c → dom (keys c) = dom (items c).
Proof.
  intros Hsync%reachable_index_sync. apply set_eq. intros k.
  rewrite !elem_of_dom, <- !not_eq_None_Some.
  by rewrite (sync_keys c Hsync k).
Qed.

(** ** What a search returns *)

(** The contents the search returns are those of the keys its loop
    visits, in the order of the visits. *)
Lemma ItemsWithinDistance_found_keys lat lon distanceMeters params c :
  (Collection_ItemsWithinDistance lat lon distanceMeters params c).1
  = contents_of c <$> found_keys c (search_covering lat lon distanceMeters params).
Proof. rewrite ItemsWithinDistance_eq. simpl. apply found_contents. Qed.

Lemma elem_of_found_keys c (cellUnion : list CellID) k :
  k ∈ found_keys c cellUnion
  ↔ ∃ cell, cell ∈ cellUnion ∧ k ∈ cell_at (cells c) (Level cell) (Pos cell).
Proof.
  unfold found_keys. rewrite list_elem_of_bind. split.
  - intros (cell & Hk%elem_of_elements & Hcell). eauto.
  - intros (cell & Hcell & Hk). exists cell. by rewrite elem_of_elements.
Qed.

(** After [Delete(k)] on a collection built through the API, [ItemByKey(k)]
    is nil and no search visits [k], whatever the query. *)
Theorem Delete_hides_key_from_search c k :
  reachable c →
  Collection_ItemByKey k (Collection_Delete k c) = None
  ∧ ∀ lat lon distanceMeters params,
      k ∉ found_keys (Collection_Delete k c)
            (search_covering lat lon distanceMeters params).
Proof.
  intros Hsync%reachable_index_sync. unfold Collection_Delete. split.
  - unfold Collection_ItemByKey. by rewrite items_delete, lookup_delete_eq.
  - intros lat lon distanceMeters params (cell & _ & Hk)%elem_of_found_keys.
    apply elem_of_cells_delete in Hk; [|done]. by destruct Hk.
Qed.

(** The exact result of a search on a collection built through the API: a
    value is returned if and only if it is the contents of a stored item
    whose leaf cell has, at the level of some covering cell, the position
    of that covering cell. *)
Theorem ItemsWithinDistance_returns_exactly c lat lon distanceMeters params x :
  leaf_respects_float_eq →
  reachable c →
  x ∈ (Collection_ItemsWithinDistance lat lon distanceMeters params c).1
  ↔ ∃ cell k r,
      cell ∈ search_covering lat lon distanceMeters params
      ∧ items c !! k = Some r
      ∧ 0 ≤ Level cell ≤ maxCellLevel
      ∧ Pos cell = Pos (Parent (leafCellID (latitude r) (longitude r)) (Level cell))
      ∧ contents r = x.
Proof.
  intros Hleaf Hreach. pose proof (reachable_index_inv c Hleaf Hreach) as Hinv.
  rewrite ItemsWithinDistance_found_keys, list_elem_of_fmap. split.
  - intros (k & -> & (cell & Hcell & Hk)%elem_of_found_keys).
    apply (inv_cells c Hinv) in Hk as (r & Hr & Hl & Hp).
    exists cell, k, r. unfold contents_of. rewrite Hr. simpl.
    split; [done|]. split; [done|]. split; [done|]. by split.
  - intros (cell & k & r & Hcell & Hr & Hl & Hp & <-).
    exists k. split; [unfold contents_of; by rewrite Hr|].
    apply elem_of_found_keys. exists cell. split; [done|].
    apply (inv_cells c Hinv). exists r. split; [done|]. by split.
Qed.

(** A collection built through the API that holds no item answers every
    search with no contents, also after items were stored and deleted. *)
Theorem ItemsWithinDistance_of_no_items c lat lon distanceMeters params :
  reachable c →
  items c = ∅ →
  (Collection_ItemsWithinDistance lat lon distanceMeters params c).1 = [].
Proof.
  intros Hsync%reachable_index_sync Hempty.
  rewrite ItemsWithinDistance_found_keys.
  rewrite (elem_of_nil_inv (found_keys c _)); [done|].
  intros k (cell & _ & Hk)%elem_of_found_keys.
  apply (sync_cells c Hsync) in Hk as (entries & Hentries & _).
  assert (items c !! k = None) as Hnone by by rewrite Hempty, lookup_empty.
  apply (sync_keys c Hsync) in Hnone. congruence.
Qed.

(** The second result of a search, on every collection: one polygon per
    covering cell, in the order of the covering.  The polygon at index [i]
    is that of the [i]-th covering cell: the cell's vertices 0 to 3 as S2
    gives them, each as [longitude, latitude] in degrees, and vertex 0
    again to close the loop.  The stored items play no part in it. *)
Theorem ItemsWithinDistance_cell_bounds c lat lon distanceMeters params :
  let cellUnion := search_covering lat lon distanceMeters params in
  let cellBounds :=
    (Collection_ItemsWithinDistance lat lon distanceMeters params c).2 in
  length cellBounds = length cellUnion
  ∧ (∀ (i : nat) cell,
       cellUnion !! i = Some cell →
       ∃ vertices,
         cellBounds !! i = Some vertices
         ∧ length vertices = 5%nat
         ∧ (∀ j, 0 ≤ j < 4 →
              vertices !! Z.to_nat j
              = Some [LngDegrees (LatLngFromPoint (Vertex cell j));
                      LatDegrees (LatLngFromPoint (Vertex cell j))])
         ∧ vertices !! 4%nat = vertices !! 0%nat)
  ∧ ∀ c',
      (Collection_ItemsWithinDistance lat lon distanceMeters params c').2
      = cellBounds.
Proof.
  intros cellUnion cellBounds. subst cellUnion cellBounds.
  rewrite ItemsWithinDistance_eq. simpl.
  split; [apply length_fmap|]. split.
  - intros i cell Hi. exists (cell_polygon cell).
    rewrite (list_lookup_fmap cell_polygon), Hi. split; [done|]. split; [done|].
    split; [|done]. intros j Hj.
    assert (j = 0 ∨ j = 1 ∨ j = 2 ∨ j = 3) as [->|[->|[->| ->]]] by lia; done.
  - intros c'. by rewrite ItemsWithinDistance_eq.
Qed.

(** ** What the cell index keeps *)

Lemma slot_is_Some_delete key c l p :
  is_Some (slot (cells (Collection_delete key c)) l p)
  ↔ is_Some (slot (cells c) l p).
Proof.
  unfold Collection_delete. destruct (keys c !! key); simpl; [|done].
  rewrite slot_remove_keys. destruct (decide _); [|done]. by rewrite fmap_is_Some.
Qed.

(** Neither [Delete] nor [Set] ever frees a set of the cell index: a slot
    that exists still exists afterwards, whatever the collection. *)
Theorem allocated_slots_persist c k v lat lon l p :
  is_Some (slot (cells c) l p) →
  is_Some (slot (cells (Collection_Delete k c)) l p)
  ∧ is_Some (slot (cells (Collection_Set k v lat lon c)) l p).
Proof.
  intros Hslot. split; [by apply slot_is_Some_delete|].
  destruct (same_location (items c !! k) lat lon) eqn:Hs.
  - by rewrite Set_same_location.
  - rewrite Set_other_location by done. rewrite slot_index_levels. simpl.
    destruct (decide _); [done | by apply slot_is_Some_delete].
Qed.

(** Storing a new key and deleting it again leaves its 31 sets in the cell
    index, without the key in them. *)
Theorem Set_then_Delete_leaves_slots c k v lat lon level :
  items c !! k = None →
  0 ≤ level ≤ maxCellLevel →
  ∃ s, slot (cells (Collection_Delete k (Collection_Set k v lat lon c)))
            level (Pos (Parent (leafCellID lat lon) level)) = Some s
       ∧ k ∉ s.
Proof.
  intros Hk Hl.
  assert (Hs : same_location (items c !! k) lat lon = false) by by rewrite Hk.
  assert (Hkeys : keys (Collection_Set k v lat lon c) !! k
                  = Some (index_entries (leafCellID lat lon)
                            (Z.to_nat (maxCellLevel + 1)))).
  { by rewrite keys_Set_other_location, lookup_insert_eq. }
  unfold Collection_Delete. rewrite (slot_cells_delete _ _ _ _ _ Hkeys).
  rewrite decide_True by (apply elem_of_index_entries; by rewrite levels_bound).
  rewrite Set_other_location by done. rewrite slot_index_levels. simpl.
  rewrite decide_True by by rewrite levels_bound.
  simpl. eexists. split; [done|]. set_solver.
Qed.

Lemma reachable_levels c :
  reachable c →
  (∀ l, is_Some (cells c !! l) → 0 ≤ l ≤ maxCellLevel)
  ∧ (∀ k, is_Some (keys c !! k) →
       ∀ l, 0 ≤ l ≤ maxCellLevel → is_Some (cells c !! l)).
Proof.
  induction 1 as [|key v lat lon c Hreach [IH1 IH2]|key c Hreach [IH1 IH2]].
  - split.
    + intros l. simpl. rewrite lookup_empty. by intros [? [=]].
    + intros k. simpl. rewrite lookup_empty. by intros [? [=]].
  - destruct (same_location (items c !! key) lat lon) eqn:Hs.
    + by rewrite Set_same_location.
    + rewrite Set_other_location by done. split.
      * intros l. rewrite level_index_levels. simpl. rewrite level_cells_delete.
        intros [?%levels_bound|?]; auto.
      * intros k _ l Hl. rewrite level_index_levels. left. by apply levels_bound.
  - unfold Collection_Delete. split.
    + intros l. rewrite level_cells_delete. apply IH1.
    + intros k. rewrite keys_delete, lookup_delete_is_Some. intros [_ Hk] l Hl.
      rewrite level_cells_delete. by eapply IH2.
Qed.

(** After a [Set] on a collection built through the API, the cell index
    has exactly the levels 0 to 30. *)
Theorem Set_allocates_every_level c k v lat lon l :
  reachable c →
  is_Some (cells (Collection_Set k v lat lon c) !! l) ↔ 0 ≤ l ≤ maxCellLevel.
Proof.
  intros Hreach.
  assert (Hreach' : reachable (Collection_Set k v lat lon c))
    by by apply reachable_Set.
  destruct (reachable_levels _ Hreach') as [H1 H2].
  split; [apply H1|]. apply (H2 k).
  pose proof (reachable_index_sync _ Hreach') as Hsync.
  apply not_eq_None_Some. intros Hnone%(sync_keys _ Hsync).
  by rewrite items_Set, lookup_insert_eq in Hnone.
Qed.

(** ** The records determine the answers *)

Lemma same_records_same_answers c1 c2 :
  index_inv c1 → index_inv c2 → items c1 = items c2 →
  keys c1 = keys c2
  ∧ (∀ level pos, cell_at (cells c1) level pos = cell_at (cells c2) level pos)
  ∧ ∀ lat lon distanceMeters params found1 found2,
      ItemsWithinDistance_may_return lat lon distanceMeters params c1 found1 →
      ItemsWithinDistance_may_return lat lon distanceMeters params c2 found2 →
      found1 ≡ₚ found2.
Proof.
  intros Hinv1 Hinv2 Hitems.
  assert (Hcells : ∀ level pos,
             cell_at (cells c1) level pos = cell_at (cells c2) level pos).
  { intros level pos. apply set_eq. intros k.
    by rewrite (inv_cells c1 Hinv1), (inv_cells c2 Hinv2), Hitems. }
  split; [|split; [exact Hcells|]].
  - apply map_eq. intros k.
    by rewrite (inv_keys c1 Hinv1), (inv_keys c2 Hinv2), Hitems.
  - intros lat lon distanceMeters params found1 found2
      (visits1 & Hvisits1 & ->) (visits2 & Hvisits2 & ->).
    rewrite (visits_found_keys _ _ _ Hvisits1), (visits_found_keys _ _ _ Hvisits2).
    unfold found_keys.
    generalize (search_covering lat lon distanceMeters params).
    intros cellUnion. induction cellUnion as [|cell cellUnion IH]; [done|].
    cbn [mbind list_bind]. rewrite !fmap_app, IH, Hcells.
    apply Permutation_app_tail.
    assert (contents_of c1 <$> elements (cell_at (cells c2) (Level cell) (Pos cell))
            = contents_of c2 <$> elements (cell_at (cells c2) (Level cell) (Pos cell)))
      as ->; [|done].
    apply list_fmap_ext. intros k. unfold contents_of. by rewrite Hitems.
Qed.

(** Two collections built through the API that hold the same records have
    the same reverse index and the same keys in every cell, and answer
    every search with the same contents, each as often, whatever the
    operations that built them: whichever order the inner loop takes in
    either of them, one result is a permutation of the other. *)
Theorem same_records_same_search c1 c2 :
  leaf_respects_float_eq →
  reachable c1 → reachable c2 →
  items c1 = items c2 →
  keys c1 = keys c2
  ∧ (∀ level pos, cell_at (cells c1) level pos = cell_at (cells c2) level pos)
  ∧ ∀ lat lon distanceMeters params found1 found2,
      ItemsWithinDistance_may_return lat lon distanceMeters params c1 found1 →
      ItemsWithinDistance_may_return lat lon distanceMeters params c2 found2 →
      found1 ≡ₚ found2.
Proof.
  intros Hleaf H1 H2. apply same_records_same_answers; by apply reachable_index_inv.
Qed.

(** The last [Set] of a key wins: setting a key twice gives the records
    and the reverse index of setting it once with the second arguments, and
    every search returns the same contents, each as often (a permutation,
    since the order of the inner loop is not fixed). *)
Theorem Set_overwrites_Set c k v1 lat1 lon1 v2 lat2 lon2 :
  leaf_respects_float_eq →
  reachable c →
  let twice := Collection_Set k v2 lat2 lon2 (Collection_Set k v1 lat1 lon1 c) in
  let once := Collection_Set k v2 lat2 lon2 c in
  items twice = items once
  ∧ keys twice = keys once
  ∧ ∀ lat lon distanceMeters params found1 found2,
      ItemsWithinDistance_may_return lat lon distanceMeters params twice found1 →
      ItemsWithinDistance_may_return lat lon distanceMeters params once found2 →
      found1 ≡ₚ found2.
Proof.
  intros Hleaf Hreach twice once.
  assert (Hitems : items twice = items once).
  { subst twice once. by rewrite !items_Set, insert_insert_eq. }
  split; [done|].
  destruct (same_records_same_answers twice once) as (? & _ & ?); [..|done|done].
  - apply reachable_index_inv; [done|]. by do 2 apply reachable_Set.
  - apply reachable_index_inv; [done|]. by apply reachable_Set.
Qed.

(** [Set]s of different keys commute, as far as lookups and searches can
    tell: both orders give the same records and reverse index, and every
    search returns the same contents, each as often (a permutation, since
    the order of the inner loop is not fixed). *)
Theorem Set_commutes_on_distinct_keys c k1 v1 lat1 lon1 k2 v2 lat2 lon2 :
  leaf_respects_float_eq →
  reachable c →
  k1 ≠ k2 →
  let a := Collection_Set k1 v1 lat1 lon1 (Collection_Set k2 v2 lat2 lon2 c) in
  let b := Collection_Set k2 v2 lat2 lon2 (Collection_Set k1 v1 lat1 lon1 c) in
  items a = items b
  ∧ keys a = keys b
  ∧ ∀ lat lon distanceMeters params found1 found2,
      ItemsWithinDistance_may_return lat lon distanceMeters params a found1 →
      ItemsWithinDistance_may_return lat lon distanceMeters params b found2 →
      found1 ≡ₚ found2.
Proof.
  intros Hleaf Hreach Hne a b.
  assert (Hitems : items a = items b).
  { subst a b. rewrite !items_Set. by apply insert_insert_ne. }
  split; [done|].
  destruct (same_records_same_answers a b) as (? & _ & ?); [..|done|done];
    (apply reachable_index_inv; [done|]; by do 2 apply reachable_Set).
Qed.

(** [Set] then [Delete] of a key gives the records and the reverse index
    of the [Delete] alone, and every search returns the same contents,
    each as often (a permutation, since the order of the inner loop is not
    fixed). *)
Theorem Delete_after_Set_like_Delete c k v lat lon :
  leaf_respects_float_eq →
  reachable c →
  let a := Collection_Delete k (Collection_Set k v lat lon c) in
  let b := Collection_Delete k c in
  items a = items b
  ∧ keys a = keys b
  ∧ ∀ lat' lon' distanceMeters params found1 found2,
      ItemsWithinDistance_may_return lat' lon' distanceMeters params a found1 →
      ItemsWithinDistance_may_return lat' lon' distanceMeters params b found2 →
      found1 ≡ₚ found2.
Proof.
  intros Hleaf Hreach a b.
  assert (Hitems : items a = items b).
  { subst a b. unfold Collection_Delete.
    by rewrite !items_delete, items_Set, delete_insert_eq. }
  split; [done|].
  destruct (same_records_same_answers a b) as (? & _ & ?); [..|done|done].
  - apply reachable_index_inv; [done|]. by apply reachable_Delete, reachable_Set.
  - apply reachable_index_inv; [done|]. by apply reachable_Delete.
Qed.

(** [Set] is idempotent on collections built through the API: the same
    [Set] a second time gives back the very same collection, also for NaN
    coordinates, where the second call deletes and indexes the key again. *)
Theorem Set_idempotent c k v lat lon :
  leaf_respects_float_eq →
  reachable c →
  Collection_Set k v lat lon (Collection_Set k v lat lon c)
  = Collection_Set k v lat lon c.
Proof.
  intros Hleaf Hreach.
  set (c1 := Collection_Set k v lat lon c).
  assert (Hinv : index_inv c1).
  { apply reachable_index_inv; [done|]. by apply reachable_Set. }
  assert (Hr : items c1 !! k
               = Some {| contents := v; latitude := lat; longitude := lon |}).
  { subst c1. by rewrite items_Set, lookup_insert_eq. }
  destruct (same_location (items c1 !! k) lat lon) eqn:Hs.
  - rewrite Set_same_location by done.
    apply Collection_eq; simpl; [done | done | by apply insert_id].
  - destruct (Set_other_location_same_leaf k v lat lon c1 _ Hinv Hr eq_refl Hs)
      as [Hcells Hkeys].
    apply Collection_eq; [done | done |]. rewrite items_Set. by apply insert_id.
Qed.

(** ** Distances in meters *)

Lemma shr_1_nonneg mrs : 0 ≤ shr_m mrs → 0 ≤ shr_m (shr_1 mrs).
Proof. destruct mrs as [[|[m|m|]|m] r s]; simpl; lia. Qed.

Lemma iter_pos_shr_1_nonneg n mrs :
  0 ≤ shr_m mrs → 0 ≤ shr_m (SpecFloat.iter_pos shr_1 n mrs).
Proof.
  revert mrs. induction n as [n IH|n IH|]; intros mrs Hm; simpl.
  - by apply IH, IH, shr_1_nonneg.
  - by apply IH, IH.
  - by apply shr_1_nonneg.
Qed.

Lemma shr_fexp_nonneg m e (loc : location) :
  0 ≤ m → 0 ≤ shr_m (shr_fexp prec64 emax64 m e loc).1.
Proof.
  intros Hm. unfold shr_fexp, shr.
  assert (0 ≤ shr_m (shr_record_of_loc m loc)) by by destruct loc as [|[]].
  destruct (_ - e)%Z; simpl; [done | by apply iter_pos_shr_1_nonneg | done].
Qed.

Lemma round_nearest_even_nonneg m (loc : location) :
  0 ≤ m → 0 ≤ round_nearest_even m loc.
Proof.
  intros Hm. destruct loc as [|[]]; simpl; try lia. destruct (Z.even m); lia.
Qed.

(** Rounding a non-negative mantissa gives a number of the given sign. *)
Lemma binary_round_aux_sign sx mx ex lx :
  0 ≤ mx →
  float_sign (binary_round_aux prec64 emax64 sx mx ex lx) = Some sx.
Proof.
  intros Hm. unfold binary_round_aux.
  pose proof (shr_fexp_nonneg mx ex lx Hm) as H1.
  destruct (shr_fexp prec64 emax64 mx ex lx) as [mrs' e']. simpl in H1.
  pose proof (shr_fexp_nonneg _ e' loc_Exact
                (round_nearest_even_nonneg _ (loc_of_shr_record mrs') H1)) as H2.
  destruct (shr_fexp prec64 emax64 _ e' loc_Exact) as [mrs'' e'']. simpl in H2.
  destruct (shr_m mrs'') as [|m|m]; [done | | lia].
  by destruct (_ <=? _)%Z.
Qed.

(** [EarthDistanceMeters] keeps the sign of the angle S2 measures and is
    NaN exactly when that angle is: it never turns a non-negative angle
    into a negative distance.  A zero angle gives a zero distance and an
    infinite one an infinite distance. *)
Theorem EarthDistanceMeters_sign {s2d : S2Distance} (p1 p2 : Point) :
  float_sign (EarthDistanceMeters p1 p2) = float_sign (Distance p1 p2)
  ∧ (∀ s, Distance p1 p2 = S754_zero s → EarthDistanceMeters p1 p2 = S754_zero s)
  ∧ (∀ s, Distance p1 p2 = S754_infinity s
          → EarthDistanceMeters p1 p2 = S754_infinity s).
Proof.
  unfold EarthDistanceMeters, float_mul, EarthRadiusMeters.
  destruct (Distance p1 p2) as [s|s| |s m e]; simpl.
  - rewrite xorb_false_r. by repeat split; intros ? [= ->].
  - rewrite xorb_false_r. by repeat split; intros ? [= ->].
  - by repeat split.
  - split; [|by split]. rewrite xorb_false_r. by apply binary_round_aux_sign.
Qed.

Transparent maxCellLevel.

End Operations.

(** * The collection on the locations of the tests *)

Section Fixture.
Import S2Cells Scenario.

Local Existing Instance fixture.

(** Go's [==] on floats identifies two values only when they are the same
    value or both zeros. *)
Lemma float_eq_true a b :
  float_eq a b = true →
  a = b ∨ ∃ s s', a = S754_zero s ∧ b = S754_zero s'.
Proof.
  unfold float_eq, SFeqb.
  destruct a as [s| s | |s m e], b as [s'|s'| |s' m' e']; simpl;
    try discriminate; try (by destruct s); try (by destruct s').
  - intros _. right. eauto.
  - destruct s, s'; (discriminate || by left).
  - destruct s, s'; try discriminate;
      destruct (Z.compare e e') eqn:Ee; try discriminate;
      destruct (Pos.compare_cont Eq m m') eqn:Em; try discriminate;
      apply Z.compare_eq in Ee; apply Pos.compare_eq in Em; subst; by left.
Qed.

Lemma float_eq_compat a a' b :
  float_eq a a' = true → float_eq a b = float_eq a' b.
Proof.
  intros [->|(s & s' & -> & ->)]%float_eq_true; [done|]. by destruct b.
Qed.

Lemma fixture_leaf_respects_float_eq : leaf_respects_float_eq.
Proof.
  intros lat lat' lon lon' Hlat Hlon. unfold leafCellID. simpl.
  by rewrite (float_eq_compat _ _ _ Hlat), (float_eq_compat _ _ _ Hlon).
Qed.

Lemma reachable_chicago_only : reachable chicago_only.
Proof. apply reachable_Set, reachable_new. Qed.

Lemma reachable_two_items : reachable two_items.
Proof. do 2 apply reachable_Set. apply reachable_new. Qed.

(** The cell-id arithmetic on the cells of the tests: [cell1] is the leaf
    of the first location, [cell2] the level-20 ancestor of the second
    one's, both on face 4; every face cell has level 0 and the same
    position. *)
Example fixture_cell_ids :
  Parent chicago_leaf 30 = 0x880e2cbc904a0c29
  ∧ Parent manhattan_leaf 20 = 0x89c2590043700000
  ∧ Level 0x89c2590043700000 = 20
  ∧ Parent chicago_leaf 0 = CellIDFromFace 4
  ∧ Parent manhattan_leaf 0 = CellIDFromFace 4
  ∧ Level <$> face_cells = [0; 0; 0; 0; 0; 0]
  ∧ Pos <$> face_cells = replicate 6 0x1000000000000000.
Proof. vm_compute. repeat split; reflexivity. Qed.

(** ** The theorems at work *)

Lemma index_completeness_witness :
  ∃ entries,
    keys chicago_only !! 0 = Some entries
    ∧ length entries = 31%nat
    ∧ 0 ∈ cell_at (cells chicago_only) 30 (Pos chicago_leaf).
Proof.
  destruct (index_completeness chicago_only 0
              {| contents := Some "0"%string;
                 latitude := chicago_lat; longitude := chicago_lon |}
              fixture_leaf_respects_float_eq reachable_chicago_only)
    as (entries & Hkeys & Hlen & _ & _ & Hcells).
  - vm_compute. reflexivity.
  - exists entries. split; [exact Hkeys|]. split; [exact Hlen|].
    apply Hcells. vm_compute. repeat split; congruence.
Defined.

Lemma relocation_keeps_only_new_cells_witness :
  0 ∈ cell_at (cells relocated) 20 (Pos 0x89c2590043700000)
  ∧ 0 ∉ cell_at (cells relocated) 30 (Pos chicago_leaf)
  ∧ 0 ∈ cell_at (cells relocated) 0 (Pos (Parent chicago_leaf 0)).
Proof.
  destruct (relocation_keeps_only_new_cells empty 0
              (Some "0"%string) (Some "0"%string)
              chicago_lat chicago_lon manhattan_lat manhattan_lon
              fixture_leaf_respects_float_eq reachable_new)
    as (Hcells & _ & Hold).
  split; [|split].
  - apply Hcells. vm_compute. repeat split; congruence.
  - intros [_ Hpos]%Hcells. vm_compute in Hpos. discriminate.
  - apply (Hold 0); vm_compute; repeat split; congruence.
Defined.

(** C3, as stated, fails on "Should replace an item's coordinates": the two
    locations of the tests are different, both lie on face 4, and after the
    second [Set] the level-0 slot of the first location, which is also the
    level-0 slot of the second, still contains the key. *)
Lemma relocation_residue_counterexample :
  ¬ (∀ (k : Z) (v : option string) lat1 lon1 lat2 lon2,
       (lat1, lon1) ≠ (lat2, lon2) →
       let c2 := Collection_Set k v lat2 lon2
                   (Collection_Set k v lat1 lon1 NewCollection) in
       ∀ level, 0 ≤ level ≤ maxCellLevel →
         k ∉ cell_at (cells c2) level (Pos (Parent (leafCellID lat1 lon1) level))).
Proof.
  intros Hclaim.
  apply (Hclaim 0 (Some "0"%string)
           chicago_lat chicago_lon manhattan_lat manhattan_lon
           ltac:(discriminate) 0 ltac:(unfold maxCellLevel; lia)).
  apply (bool_decide_unpack _). vm_compute. exact I.
Qed.

Lemma Set_same_location_replaces_contents_only_witness :
  Collection_Set 0 (Some "1"%string) chicago_lat chicago_lon chicago_only
  = {| cells := cells chicago_only;
       keys := keys chicago_only;
       items := <[0 := {| contents := Some "1"%string;
                          latitude := chicago_lat; longitude := chicago_lon |}]>
                  (items chicago_only) |}.
Proof.
  apply (Set_same_location_replaces_contents_only chicago_only 0
           (Some "0"%string) (Some "1"%string) chicago_lat chicago_lon
           fixture_leaf_respects_float_eq reachable_chicago_only).
  vm_compute. reflexivity.
Defined.

Lemma Delete_absent_is_noop_witness :
  Collection_Delete 1 chicago_only = chicago_only.
Proof.
  apply (Delete_absent_is_noop chicago_only 1 reachable_chicago_only).
  vm_compute. reflexivity.
Defined.

Lemma Set_then_Delete_forgets_key_witness :
  let c' := Collection_Delete 5
              (Collection_Set 5 (Some "x"%string) chicago_lat chicago_lon empty) in
  Collection_ItemByKey 5 c' = None
  ∧ keys c' !! 5 = None
  ∧ ∀ level pos, 5 ∉ cell_at (cells c') level pos.
Proof.
  apply (Set_then_Delete_forgets_key empty 5 (Some "x"%string)
           chicago_lat chicago_lon reachable_new).
Defined.

(** C8, as stated for all integers, fails for a negative page size: no
    sequence has fewer than zero elements.  [GetItems(-1, 0)] on the two
    items of the tests is the empty sequence, which is not "at most -1"
    contents. *)
Lemma GetItems_negative_pageSize_counterexample :
  Collection_GetItems (-1) 0 two_items = []
  ∧ ¬ (Z.of_nat (length (Collection_GetItems (-1) 0 two_items)) ≤ -1).
Proof. split; [vm_compute; reflexivity | lia]. Qed.

Lemma GetItems_bounds_witness :
  Z.of_nat (length (Collection_GetItems 1 0 two_items)) ≤ 1
  ∧ Collection_GetItems 10 2 two_items = [].
Proof.
  split.
  - apply (proj1 (GetItems_bounds two_items 1 0)). lia.
  - apply (proj2 (GetItems_bounds two_items 10 2)). vm_compute. discriminate.
Defined.

Lemma ItemByKey_nil_contents_like_absent_witness :
  Collection_ItemByKey 0 (Collection_Set 0 None chicago_lat chicago_lon empty)
  = Collection_ItemByKey 2 two_items.
Proof.
  apply (ItemByKey_nil_contents_like_absent empty 0 chicago_lat chicago_lon
           two_items 2).
  vm_compute. reflexivity.
Defined.

Lemma Delete_frames_other_keys_witness :
  items (Collection_Delete 0 two_items) !! 1 = items two_items !! 1
  ∧ keys (Collection_Delete 0 two_items) !! 1 = keys two_items !! 1
  ∧ ∀ level pos,
      1 ∈ cell_at (cells (Collection_Delete 0 two_items)) level pos
      ↔ 1 ∈ cell_at (cells two_items) level pos.
Proof.
  apply (Delete_frames_other_keys two_items 0 1). discriminate.
Defined.

(** C6 fails on a search of the whole sphere at level 0.  The covering is
    the six face cells, which are distinct and disjoint; [Pos] drops the
    face, so all six read the same slot [cells[0][1<<60]], and the one
    stored item is returned six times. *)
Theorem whole_sphere_search_returns_item_six_times :
  search_covering chicago_lat chicago_lon whole_sphere_meters face_level_params
  = face_cells
  ∧ NoDup face_cells
  ∧ (∀ cell, cell ∈ face_cells → Level cell = 0 ∧ Pos cell = 0x1000000000000000)
  ∧ elements (cell_at (cells chicago_only) 0 0x1000000000000000) = [0]
  ∧ occurrences 0 (found_keys chicago_only face_cells) = 6%nat
  ∧ (Collection_ItemsWithinDistance chicago_lat chicago_lon whole_sphere_meters
       face_level_params chicago_only).1
    = replicate 6 (Some "0"%string).
Proof.
  split; [reflexivity|].
  split; [apply (bool_decide_unpack _); vm_compute; exact I|].
  split.
  - intros cell Hcell. apply list_elem_of_In in Hcell. vm_compute in Hcell.
    intuition subst; vm_compute; done.
  - repeat split; vm_compute; reflexivity.
Qed.

(** ** The further properties at work *)

Lemma reachable_relocated : reachable relocated.
Proof. apply reachable_Set, reachable_chicago_only. Qed.

Lemma Set_frames_other_keys_witness :
  let c' := Collection_Set 1 (Some "1"%string) manhattan_lat manhattan_lon
              chicago_only in
  items c' !! 0 = items chicago_only !! 0
  ∧ keys c' !! 0 = keys chicago_only !! 0
  ∧ ∀ level pos,
      0 ∈ cell_at (cells c') level pos ↔ 0 ∈ cell_at (cells chicago_only) level pos.
Proof.
  apply (Set_frames_other_keys chicago_only 1 (Some "1"%string)
           manhattan_lat manhattan_lon 0).
  discriminate.
Defined.

Lemma reachable_keys_dom_witness :
  dom (keys two_items) = dom (items two_items).
Proof. apply (reachable_keys_dom two_items reachable_two_items). Defined.

Lemma Delete_hides_key_from_search_witness :
  Collection_ItemByKey 0 (Collection_Delete 0 two_items) = None
  ∧ 0 ∉ found_keys (Collection_Delete 0 two_items)
          (search_covering chicago_lat chicago_lon whole_sphere_meters
             face_level_params).
Proof.
  destruct (Delete_hides_key_from_search two_items 0 reachable_two_items)
    as [Hnil Hsearch].
  split; [exact Hnil | apply Hsearch].
Defined.

Lemma ItemsWithinDistance_returns_exactly_witness :
  Some "1"%string
  ∈ (Collection_ItemsWithinDistance chicago_lat chicago_lon whole_sphere_meters
       face_level_params two_items).1.
Proof.
  apply (ItemsWithinDistance_returns_exactly two_items chicago_lat chicago_lon
           whole_sphere_meters face_level_params (Some "1"%string)
           fixture_leaf_respects_float_eq reachable_two_items).
  exists (CellIDFromFace 4), 0,
    {| contents := Some "1"%string;
       latitude := chicago_lat; longitude := chicago_lon |}.
  split; [vm_compute; repeat constructor|].
  vm_compute. repeat split; congruence.
Defined.

Lemma ItemsWithinDistance_of_no_items_witness :
  (Collection_ItemsWithinDistance chicago_lat chicago_lon whole_sphere_meters
     face_level_params (Collection_Delete 0 chicago_only)).1 = [].
Proof.
  apply (ItemsWithinDistance_of_no_items (Collection_Delete 0 chicago_only)).
  - apply reachable_Delete, reachable_chicago_only.
  - vm_compute. reflexivity.
Defined.

Lemma allocated_slots_persist_witness :
  is_Some (slot (cells (Collection_Delete 0 chicago_only)) 30 (Pos chicago_leaf))
  ∧ is_Some (slot (cells (Collection_Set 0 (Some "0"%string)
                            manhattan_lat manhattan_lon chicago_only))
               30 (Pos chicago_leaf)).
Proof.
  apply (allocated_slots_persist chicago_only 0 (Some "0"%string)
           manhattan_lat manhattan_lon 30 (Pos chicago_leaf)).
  vm_compute. eexists. reflexivity.
Defined.

Lemma Set_then_Delete_leaves_slots_witness :
  ∃ s, slot (cells (Collection_Delete 0 chicago_only)) 30 (Pos chicago_leaf) = Some s
       ∧ 0 ∉ s.
Proof.
  destruct (Set_then_Delete_leaves_slots empty 0 (Some "0"%string)
              chicago_lat chicago_lon 30)
    as (s & Hslot & Hk).
  - vm_compute. reflexivity.
  - unfold maxCellLevel. lia.
  - exists s. split; [|exact Hk]. rewrite <- Hslot. vm_compute. reflexivity.
Defined.

Lemma Set_allocates_every_level_witness :
  is_Some (cells chicago_only !! 17).
Proof.
  apply (Set_allocates_every_level empty 0 (Some "0"%string)
           chicago_lat chicago_lon 17 reachable_new).
  unfold maxCellLevel. lia.
Defined.

Lemma same_records_same_search_witness :
  let a := Collection_Delete 1 two_items in
  let b := Collection_Set 0 (Some "1"%string) chicago_lat chicago_lon empty in
  keys a = keys b
  ∧ (Collection_ItemsWithinDistance chicago_lat chicago_lon whole_sphere_meters
       face_level_params a).1
    ≡ₚ (Collection_ItemsWithinDistance chicago_lat chicago_lon whole_sphere_meters
          face_level_params b).1.
Proof.
  destruct (same_records_same_search (Collection_Delete 1 two_items)
              (Collection_Set 0 (Some "1"%string) chicago_lat chicago_lon empty)
              fixture_leaf_respects_float_eq)
    as (Hkeys & _ & Hsearch).
  - apply reachable_Delete, reachable_two_items.
  - apply reachable_Set, reachable_new.
  - vm_compute. reflexivity.
  - split; [exact Hkeys|].
    apply (Hsearch chicago_lat chicago_lon whole_sphere_meters face_level_params);
      apply ItemsWithinDistance_may_return_elements.
Defined.

Lemma Set_overwrites_Set_witness :
  let once := Collection_Set 0 (Some "0"%string) manhattan_lat manhattan_lon empty in
  items relocated = items once
  ∧ keys relocated = keys once
  ∧ (Collection_ItemsWithinDistance chicago_lat chicago_lon whole_sphere_meters
       face_level_params relocated).1
    ≡ₚ (Collection_ItemsWithinDistance chicago_lat chicago_lon whole_sphere_meters
          face_level_params once).1.
Proof.
  destruct (Set_overwrites_Set empty 0 (Some "0"%string) chicago_lat chicago_lon
              (Some "0"%string) manhattan_lat manhattan_lon
              fixture_leaf_respects_float_eq reachable_new)
    as (Hitems & Hkeys & Hsearch).
  split; [exact Hitems|]. split; [exact Hkeys|].
  apply (Hsearch chicago_lat chicago_lon whole_sphere_meters face_level_params);
    apply ItemsWithinDistance_may_return_elements.
Defined.

Lemma Set_commutes_on_distinct_keys_witness :
  let other_order :=
    Collection_Set 0 (Some "1"%string) chicago_lat chicago_lon
      (Collection_Set 1 (Some "2"%string) manhattan_lat manhattan_lon empty) in
  items two_items = items other_order
  ∧ keys two_items = keys other_order
  ∧ (Collection_ItemsWithinDistance chicago_lat chicago_lon whole_sphere_meters
       face_level_params two_items).1
    ≡ₚ (Collection_ItemsWithinDistance chicago_lat chicago_lon whole_sphere_meters
          face_level_params other_order).1.
Proof.
  destruct (Set_commutes_on_distinct_keys empty
              1 (Some "2"%string) manhattan_lat manhattan_lon
              0 (Some "1"%string) chicago_lat chicago_lon
              fixture_leaf_respects_float_eq reachable_new ltac:(discriminate))
    as (Hitems & Hkeys & Hsearch).
  split; [exact Hitems|]. split; [exact Hkeys|].
  apply (Hsearch chicago_lat chicago_lon whole_sphere_meters face_level_params);
    apply ItemsWithinDistance_may_return_elements.
Defined.

Lemma Delete_after_Set_like_Delete_witness :
  let a := Collection_Delete 1
             (Collection_Set 1 (Some "2"%string) manhattan_lat manhattan_lon
                chicago_only) in
  let b := Collection_Delete 1 chicago_only in
  items a = items b
  ∧ keys a = keys b
  ∧ (Collection_ItemsWithinDistance chicago_lat chicago_lon whole_sphere_meters
       face_level_params a).1
    ≡ₚ (Collection_ItemsWithinDistance chicago_lat chicago_lon whole_sphere_meters
          face_level_params b).1.
Proof.
  destruct (Delete_after_Set_like_Delete chicago_only 1 (Some "2"%string)
              manhattan_lat manhattan_lon
              fixture_leaf_respects_float_eq reachable_chicago_only)
    as (Hitems & Hkeys & Hsearch).
  split; [exact Hitems|]. split; [exact Hkeys|].
  apply (Hsearch chicago_lat chicago_lon whole_sphere_meters face_level_params);
    apply ItemsWithinDistance_may_return_elements.
Defined.

Lemma Set_idempotent_witness :
  Collection_Set 0 (Some "0"%string) chicago_lat chicago_lon chicago_only
  = chicago_only.
Proof.
  apply (Set_idempotent empty 0 (Some "0"%string) chicago_lat chicago_lon
           fixture_leaf_respects_float_eq reachable_new).
Defined.

(** The two cells of the tests as a covering: the first item is found once. *)
Lemma found_keys_at_most_once_witness :
  Nat.le
    (occurrences 0 (found_keys chicago_only [0x880e2cbc904a0c29; 0x89c2590043700000]))
    1%nat.
Proof.
  apply (found_keys_at_most_once chicago_only 0
           {| contents := Some "0"%string;
              latitude := chicago_lat; longitude := chicago_lon |}).
  - apply reachable_index_inv;
      [apply fixture_leaf_respects_float_eq | apply reachable_chicago_only].
  - vm_compute. reflexivity.
  - apply (bool_decide_unpack _). vm_compute. exact I.
  - intros cell Hcell%list_elem_of_In. simpl in Hcell.
    destruct Hcell as [<-|[<-|[]]]; vm_compute; congruence.
  - intros cell1 cell2 Hcell1%list_elem_of_In Hcell2%list_elem_of_In.
    simpl in Hcell1, Hcell2.
    destruct Hcell1 as [<-|[<-|[]]], Hcell2 as [<-|[<-|[]]];
      vm_compute; congruence.
Defined.

End Fixture.

(** * The radius search on a geometry with distances *)

Section CapFixture.
Import S2Cells CapGeometry.

Local Existing Instance cap_fixture.
Local Existing Instance cap_fixture_distance.

Lemma cap_fixture_leaf_respects_float_eq : leaf_respects_float_eq.
Proof.
  intros lat lat' lon lon' Hlat Hlon. unfold leafCellID. simpl.
  unfold leaf_at, is_chicago. simpl.
  by rewrite (float_eq_compat _ _ _ Hlat), (float_eq_compat _ _ _ Hlon).
Qed.

(** At each level of a coverer the cell of either place has that level. *)
Lemma coverer_level_cells level :
  Level (Parent chicago_leaf (coverer_level level)) = coverer_level level
  ∧ Level (Parent manhattan_leaf (coverer_level level)) = coverer_level level.
Proof.
  assert (Hall : Forall (λ l, S2Cells.Level (S2Cells.Parent chicago_leaf l) = l
                              ∧ S2Cells.Level (S2Cells.Parent manhattan_leaf l) = l)
                   (seqZ 0 31)).
  { apply (bool_decide_unpack _). vm_compute. exact I. }
  rewrite Forall_forall in Hall. apply Hall, elem_of_seqZ.
  unfold coverer_level. lia.
Qed.

(** The coverings of the fixture cover their caps. *)
Lemma cap_cells_cover (level : RegionCoverer → Z) :
  covers_cap (λ rc cap, cap_cells (level rc) cap).
Proof.
  intros rc center angle lat lon Hle. simpl in Hle.
  exists (Parent (leaf_at (lat, lon)) (coverer_level (level rc))). split.
  - unfold cap_cells. apply elem_of_remove_dups, list_elem_of_fmap.
    exists (if is_chicago (lat, lon) then chicago else manhattan).
    assert (Hplace : is_chicago (if is_chicago (lat, lon) then chicago else manhattan)
                     = is_chicago (lat, lon)).
    { by destruct (is_chicago (lat, lon)). }
    split.
    + unfold leaf_at. by rewrite Hplace.
    + apply list_elem_of_filter. split.
      * simpl. unfold angle_between in *. rewrite Hplace. by apply Is_true_true.
      * destruct (is_chicago (lat, lon)); repeat constructor.
  - unfold cell_contains, leafCellID. simpl.
    destruct (coverer_level_cells (level rc)) as [Hchicago Hmanhattan].
    simpl in Hchicago, Hmanhattan.
    unfold leaf_at. destruct (is_chicago (lat, lon)).
    + rewrite Hchicago. split; [unfold coverer_level, maxCellLevel; lia | done].
    + rewrite Hmanhattan. split; [unfold coverer_level, maxCellLevel; lia | done].
Qed.

Lemma reachable_test_items : reachable test_items.
Proof. do 2 apply reachable_Set. apply reachable_new. Qed.

(** "Search should return multiple relevant results": the second item is
    0.1798 rad from the first, within the 0.6278 rad of 4,000,000 m, and is
    returned by the search around the first; with 1,000 m the covering of
    the fixture is the first item's cell alone, and the search returns the
    first item only. *)
Lemma ItemsWithinDistance_superset_witness :
  within_distance chicago_lat chicago_lon meters_4000000 manhattan_lat manhattan_lon
  ∧ ¬ within_distance chicago_lat chicago_lon meters_1000 manhattan_lat manhattan_lon
  ∧ Some "2"%string
    ∈ (Collection_ItemsWithinDistance chicago_lat chicago_lon meters_4000000
         (test_params false) test_items).1
  ∧ (Collection_ItemsWithinDistance chicago_lat chicago_lon meters_1000
       (test_params false) test_items).1
    = [Some "1"%string].
Proof.
  assert (Hwithin : within_distance chicago_lat chicago_lon meters_4000000
                      manhattan_lat manhattan_lon)
    by (vm_compute; reflexivity).
  split; [exact Hwithin|].
  split; [vm_compute; discriminate|].
  split; [|vm_compute; reflexivity].
  destruct (ItemsWithinDistance_superset test_items 1
              {| contents := Some "2"%string;
                 latitude := manhattan_lat; longitude := manhattan_lon |}
              chicago_lat chicago_lon meters_4000000 (test_params false))
    as [Hfound _].
  - apply cap_fixture_leaf_respects_float_eq.
  - apply (cap_cells_cover rc_MaxLevel).
  - apply (cap_cells_cover rc_MinLevel).
  - apply reachable_test_items.
  - vm_compute. reflexivity.
  - exact Hwithin.
  - exact Hfound.
Defined.

End CapFixture.
